(** * goset: a set of dynamically typed elements keyed by a derived string

    A shallow embedding of [hash.go], [unsafe_set.go], the lock-guarded
    wrapper and the constructors of [set.go], followed by the properties
    of the specification that were checked against them. *)

From stdpp Require Import base tactics option list strings pretty gmap fin_maps.

Open Scope Z_scope.
Set Warnings "-clear-no-such-hyp".

(** ** Dynamic values

    An [interface{}] value is a dynamic type together with a payload.  The
    sixteen native kinds of [isHashableObj] are kept apart; every other
    dynamic type is a user type, which either has a [Hash() string] method
    (and so implements [Hashable]) or has not.  Named types such as
    [json.Number] or [bool] are user types without [Hash]. *)

Inductive rtype : Type :=
  | TInt | TInt8 | TInt16 | TInt32 | TInt64
  | TUint | TUint8 | TUint16 | TUint32 | TUint64 | TUintptr
  | TFloat32 | TFloat64 | TComplex64 | TComplex128
  | TString
  | TUser (name : string) (has_Hash : bool).

#[global] Instance rtype_eq_dec : EqDecision rtype.
Proof. solve_decision. Defined.

(** Integers carry their mathematical value (the only conversions the
    code performs on them are widenings to [int64]/[uint64], which keep
    it); floats and complex numbers carry their IEEE bit patterns.  A value
    of a type with a [Hash] method carries the string that method returns
    on it, next to a payload that tells apart values with equal hashes. *)

Inductive any : Type :=
  | Nil
  | VInt (i : Z) | VInt8 (i : Z) | VInt16 (i : Z) | VInt32 (i : Z)
  | VInt64 (i : Z)
  | VUint (i : Z) | VUint8 (i : Z) | VUint16 (i : Z) | VUint32 (i : Z)
  | VUint64 (i : Z) | VUintptr (i : Z)
  | VFloat32 (bits : Z) | VFloat64 (bits : Z)
  | VComplex64 (re im : Z) | VComplex128 (re im : Z)
  | VString (s : string)
  | VHashable (name : string) (payload : string) (hash : string)
  | VOpaque (name : string) (payload : string).

#[global] Instance any_eq_dec : EqDecision any.
Proof. solve_decision. Defined.

(** [reflect.ValueOf(val).Type()]; it panics on the nil interface, which
    is [None] here. *)
Definition TypeOf (val : any) : option rtype :=
  match val with
  | Nil => None
  | VInt _ => Some TInt | VInt8 _ => Some TInt8 | VInt16 _ => Some TInt16
  | VInt32 _ => Some TInt32 | VInt64 _ => Some TInt64
  | VUint _ => Some TUint | VUint8 _ => Some TUint8
  | VUint16 _ => Some TUint16 | VUint32 _ => Some TUint32
  | VUint64 _ => Some TUint64 | VUintptr _ => Some TUintptr
  | VFloat32 _ => Some TFloat32 | VFloat64 _ => Some TFloat64
  | VComplex64 _ _ => Some TComplex64 | VComplex128 _ _ => Some TComplex128
  | VString _ => Some TString
  | VHashable name _ _ => Some (TUser name true)
  | VOpaque name _ => Some (TUser name false)
  end.

(** ** [strconv]

    Base-10 formatting of integers is the decimal numeral, with a leading
    minus sign for negative numbers.  The float and complex formatters are
    not part of the repository; they are taken as they come. *)

Definition FormatInt (i : Z) : string := pretty i.
Definition FormatUint (i : Z) : string := pretty i.
Definition Itoa (i : Z) : string := FormatInt i.

Class Strconv : Type := {
  (** [strconv.FormatFloat(float64(o), 'f', 8, 32)] on the bits of [o] *)
  FormatFloat32 : Z -> string;
  (** [strconv.FormatFloat(o, 'f', 8, 64)] *)
  FormatFloat64 : Z -> string;
  (** [strconv.FormatComplex(complex128(o), 'b', 8, 64)] *)
  FormatComplex64 : Z -> Z -> string;
  (** [strconv.FormatComplex(o, 'b', 8, 128)] *)
  FormatComplex128 : Z -> Z -> string
}.

(** [fmt.Sprintf("%v", obj)], the default format of a value. *)
Class Fmt : Type := {
  Sprint : any -> string
}.

(** ** Errors and panics *)

Inductive error : Type :=
  | ErrNotHashable
      (* obj is not a hashable object, can't calculate its hash *)
  | ErrNotNativeHashable (t : option rtype)
      (* %s is not a hashable native object, but the ret of
         isNativeHashableObj seems be true *)
  | ErrJSON.
      (* an error of encoding/json *)

Inductive panic : Type :=
  | PanicZeroValue
      (* reflect: call of reflect.Value.Type on zero Value *)
  | PanicTypeConflict (set_typ : option rtype) (new_typ : rtype)
      (* type conflict when you add a new element to set *)
  | PanicError (e : error).

Inductive result (A : Type) : Type :=
  | Ok (a : A)
  | Err (e : error).
Arguments Ok {A} a.
Arguments Err {A} e.

Inductive outcome (A : Type) : Type :=
  | Done (a : A)
  | Panicked (p : panic).
Arguments Done {A} a.
Arguments Panicked {A} p.

(** ** hash.go *)

Definition isHashableObj (obj : any) : bool :=
  match obj with
  | VHashable _ _ _
  | VInt _ | VInt8 _ | VInt16 _ | VInt32 _ | VInt64 _
  | VUint _ | VUint8 _ | VUint16 _ | VUint32 _ | VUint64 _ | VUintptr _
  | VFloat32 _ | VFloat64 _ | VComplex64 _ _ | VComplex128 _ _
  | VString _ => true
  | _ => false
  end.

Definition isNativeHashableObj (obj : any) : bool :=
  if negb (isHashableObj obj) then false
  else match obj with
       | VHashable _ _ _ => false
       | _ => true
       end.

Section Hash.
Context `{Strconv}.

Definition calcHash (obj : any) : result string :=
  if negb (isHashableObj obj) then Err ErrNotHashable
  else if negb (isNativeHashableObj obj) then
    match obj with
    | VHashable _ _ hash => Ok hash
    | _ => Err ErrNotHashable          (* unreachable *)
    end
  else
    match obj with
    | VString o => Ok o
    | VInt o => Ok (Itoa o)
    | VInt8 o => Ok (FormatInt o)
    | VInt16 o => Ok (FormatInt o)
    | VInt32 o => Ok (FormatInt o)
    | VInt64 o => Ok (FormatInt o)
    | VUint o => Ok (FormatUint o)
    | VUint16 o => Ok (FormatUint o)
    | VUint32 o => Ok (FormatUint o)
    | VUint64 o => Ok (FormatUint o)
    | VUintptr o => Ok (FormatUint o)
    | VFloat32 o => Ok (FormatFloat32 o)
    | VFloat64 o => Ok (FormatFloat64 o)
    | VComplex64 re im => Ok (FormatComplex64 re im)
    | VComplex128 re im => Ok (FormatComplex128 re im)
    | _ => Err (ErrNotNativeHashable (TypeOf obj))
    end.
End Hash.

(** ** unsafe_set.go

    [dat] stores [{$hash: $value}] of every element, [typ] is the set's
    data type ([None] is Go's [nil]). *)

Record ThreadUnsafeSet : Type := {
  dat : gmap string any;
  typ : option rtype
}.

Definition newThreadUnsafeSet : ThreadUnsafeSet :=
  {| dat := ∅; typ := None |}.

(** Go leaves the order in which [range] visits a map unspecified.  The
    operations that range over a map take the order that was chosen as an
    argument: a list of the map's entries, each exactly once. *)
Definition range_of (m : gmap string any) (ord : list (string * any)) : Prop :=
  ord ≡ₚ map_to_list m.

Module Unsafe.
Section Ops.
Context `{Strconv}.

Definition Add (val : any) (set : ThreadUnsafeSet)
  : outcome bool * ThreadUnsafeSet :=
  match TypeOf val with
  | None => (Panicked PanicZeroValue, set)
  | Some t =>
    if bool_decide (typ set ≠ None ∧ typ set ≠ Some t) then
      (Panicked (PanicTypeConflict (typ set) t), set)
    else
      let set :=
        if bool_decide (typ set = None)
        then {| dat := dat set; typ := Some t |} else set in
      match calcHash val with
      | Err err => (Panicked (PanicError err), set)
      | Ok hash =>
        (Done true, {| dat := <[hash := val]> (dat set); typ := typ set |})
      end
  end.

Definition Cardinality (set : ThreadUnsafeSet) : nat := size (dat set).

Definition Size (set : ThreadUnsafeSet) : nat := Cardinality set.

Definition Clear (set : ThreadUnsafeSet) : ThreadUnsafeSet :=
  newThreadUnsafeSet.

Fixpoint Contains (set : ThreadUnsafeSet) (val : list any) : bool :=
  match val with
  | [] => true
  | v :: val =>
    match calcHash v with
    | Err _ => false
    | Ok hash =>
      match dat set !! hash with
      | None => false
      | Some _ => Contains set val
      end
    end
  end.

(** The loop shared by the operations that build a set:
    [for _, obj := range objs { if keep(obj) { acc.Add(obj) } }].
    A panic of [Add] ends it. *)
Fixpoint add_each (keep : any -> bool) (objs : list any)
    (acc : ThreadUnsafeSet) : outcome unit * ThreadUnsafeSet :=
  match objs with
  | [] => (Done (), acc)
  | obj :: objs =>
    if keep obj then
      match Add obj acc with
      | (Done _, acc) => add_each keep objs acc
      | (Panicked p, acc) => (Panicked p, acc)
      end
    else add_each keep objs acc
  end.

(** The value a method returns when its local set was built without a
    panic. *)
Definition built (r : outcome unit * ThreadUnsafeSet)
  : outcome ThreadUnsafeSet :=
  match r with
  | (Done _, acc) => Done acc
  | (Panicked p, _) => Panicked p
  end.

Definition Clone (set : ThreadUnsafeSet) (ord : list (string * any))
  : outcome ThreadUnsafeSet :=
  let cloned := {| dat := ∅; typ := typ set |} in
  built (add_each (fun _ => true) ord.*2 cloned).

Definition Difference (set other : ThreadUnsafeSet)
    (ord : list (string * any)) : outcome ThreadUnsafeSet :=
  let o := other in
  let diff := newThreadUnsafeSet in
  built (add_each (fun obj => negb (Contains o [obj])) ord.*2 diff).

Definition Equal (set other : ThreadUnsafeSet) (ord : list (string * any))
  : bool :=
  if decide (Size set ≠ Size other) then true
  else
    let o := other in
    forallb (fun obj => Contains o [obj]) ord.*2.

Definition Intersect (set other : ThreadUnsafeSet)
    (ord ord_o : list (string * any)) : outcome ThreadUnsafeSet :=
  let o := other in
  let intersection := newThreadUnsafeSet in
  if decide (Size set < Size o)%nat then
    built (add_each (fun obj => Contains o [obj]) ord.*2 intersection)
  else
    built (add_each (fun obj => Contains set [obj]) ord_o.*2 intersection).

Definition IsSubset (set other : ThreadUnsafeSet)
    (ord : list (string * any)) : bool :=
  if decide (Size other < Size set)%nat then false
  else
    let o := other in
    forallb (fun obj => Contains o [obj]) ord.*2.

Definition IsProperSubset (set other : ThreadUnsafeSet)
    (ord : list (string * any)) : bool :=
  bool_decide (Size set < Size other)%nat && IsSubset set other ord.

(** [other.IsSubset(set)]: the loop ranges over [other]. *)
Definition IsSuperset (set other : ThreadUnsafeSet)
    (ord_o : list (string * any)) : bool :=
  IsSubset other set ord_o.

Definition IsProperSuperset (set other : ThreadUnsafeSet)
    (ord_o : list (string * any)) : bool :=
  bool_decide (Size other < Size set)%nat && IsSuperset set other ord_o.

(** [Each(f)].  The callback is a closure: it sees an element and answers
    whether to stop; what it does besides is a change of its own state
    [St].  [for _, obj := range set.dat { if f(obj) { break } }]. *)
Fixpoint each_loop {St : Type} (f : any -> St -> bool * St)
    (objs : list any) (st : St) : St :=
  match objs with
  | [] => st
  | obj :: objs =>
    let '(stop, st) := f obj st in
    if stop then st else each_loop f objs st
  end.

Definition Each {St : Type} (set : ThreadUnsafeSet)
    (f : any -> St -> bool * St) (ord : list (string * any)) (st : St) : St :=
  each_loop f ord.*2 st.

Definition Remove (i : any) (set : ThreadUnsafeSet)
  : outcome unit * ThreadUnsafeSet :=
  match calcHash i with
  | Err err => (Panicked (PanicError err), set)
  | Ok hash => (Done (), {| dat := delete hash (dat set); typ := typ set |})
  end.

(** [String()].  Every element is written with [", "] behind it, and the
    last two bytes are cut off again when there was an element. *)
Fixpoint write_each `{Fmt} (objs : list any) (builder : string) : string :=
  match objs with
  | [] => builder
  | obj :: objs => write_each objs (builder +:+ (Sprint obj +:+ ", "))
  end.

Definition String_ `{Fmt} (set : ThreadUnsafeSet) (ord : list (string * any))
  : string :=
  let builder := "goset.ThreadUnsafeSet{ " in
  let atLeastOnce := bool_decide (ord.*2 ≠ []) in
  let ret := write_each ord.*2 builder in
  let ret :=
    if atLeastOnce then String.substring 0 (String.length ret - 2) ret else ret in
  ret +:+ " }".

Definition SymmetricDifference (set other : ThreadUnsafeSet)
    (ord ord_o : list (string * any)) : outcome ThreadUnsafeSet :=
  let o := other in
  let diff := newThreadUnsafeSet in
  match add_each (fun obj => negb (Contains o [obj])) ord.*2 diff with
  | (Panicked p, _) => Panicked p
  | (Done _, diff) =>
    built (add_each (fun obj => negb (Contains set [obj])) ord_o.*2 diff)
  end.

Definition Union (set other : ThreadUnsafeSet)
    (ord ord_o : list (string * any)) : outcome ThreadUnsafeSet :=
  let o := other in
  let union := newThreadUnsafeSet in
  match add_each (fun _ => true) ord.*2 union with
  | (Panicked p, _) => Panicked p
  | (Done _, union) => built (add_each (fun _ => true) ord_o.*2 union)
  end.

(** The first entry the range yields is deleted and returned. *)
Definition Pop (set : ThreadUnsafeSet) (ord : list (string * any))
  : (any * bool) * ThreadUnsafeSet :=
  match ord with
  | (hash, obj) :: _ =>
    ((obj, true), {| dat := delete hash (dat set); typ := typ set |})
  | [] => ((Nil, false), set)
  end.

Definition ToSlice (set : ThreadUnsafeSet) (ord : list (string * any))
  : list any := ord.*2.

(** [NewThreadUnsafeSet(vals...)] of set.go. *)
Definition NewThreadUnsafeSet (vals : list any) : outcome ThreadUnsafeSet :=
  let s := newThreadUnsafeSet in
  built (add_each (fun _ => true) vals s).
End Ops.
End Unsafe.

(** ** encoding/json, as far as the set uses it

    A document is kept as the sequence of values it denotes rather than as
    bytes.  [MarshalJSON] always writes an array, [json.Marshal] writes the
    decimal numeral for a value of an integer kind; how the other kinds are
    written (string escapes, float formats, the [MarshalJSON] of user types)
    is not part of the repository. *)

Inductive json : Type :=
  | JNull
  | JBool (b : bool)
  | JNumber (lit : string)
  | JString (s : string)
  | JArray (text : string)
  | JObject (text : string).

Inductive document : Type :=
  | DocArray (items : list json)
  | DocNull
  | DocInvalid.      (* malformed bytes, or a document that is no array *)

Class EncodingJson : Type := {
  (** [json.Marshal] on a value that is not of an integer kind *)
  Marshal_other : any -> result json
}.

Section Json.
Context `{Strconv} `{EncodingJson}.

Definition json_Marshal (obj : any) : result json :=
  match obj with
  | VInt i | VInt8 i | VInt16 i | VInt32 i | VInt64 i
  | VUint i | VUint8 i | VUint16 i | VUint32 i | VUint64 i | VUintptr i =>
    Ok (JNumber (pretty i))
  | _ => Marshal_other obj
  end.

(** What a decoder with [UseNumber] stores into an [interface{}]: numbers
    become [json.Number], a named string type. *)
Definition decode_value (j : json) : any :=
  match j with
  | JNull => Nil
  | JBool true => VOpaque "bool" "true"
  | JBool false => VOpaque "bool" "false"
  | JNumber lit => VOpaque "json.Number" lit
  | JString s => VString s
  | JArray text => VOpaque "[]interface {}" text
  | JObject text => VOpaque "map[string]interface {}" text
  end.

(** [d.Decode(&i)] for [var i []interface{}]. *)
Definition Decode (b : document) : result (list any) :=
  match b with
  | DocArray items => Ok (decode_value <$> items)
  | DocNull => Ok []
  | DocInvalid => Err ErrJSON
  end.

Fixpoint marshal_each (objs : list any) : result (list json) :=
  match objs with
  | [] => Ok []
  | obj :: objs =>
    match json_Marshal obj with
    | Err err => Err err
    | Ok b =>
      match marshal_each objs with
      | Err err => Err err
      | Ok items => Ok (b :: items)
      end
    end
  end.

Definition MarshalJSON (set : ThreadUnsafeSet) (ord : list (string * any))
  : result document :=
  match marshal_each ord.*2 with
  | Err err => Err err
  | Ok items => Ok (DocArray items)
  end.

(** The returned [error] is [None] for Go's [nil]. *)
Definition UnmarshalJSON (b : document) (set : ThreadUnsafeSet)
  : outcome (option error) * ThreadUnsafeSet :=
  match Decode b with
  | Err err => (Done (Some err), set)
  | Ok i =>
    match Unsafe.add_each (fun _ => true) i set with
    | (Done _, set) => (Done None, set)
    | (Panicked p, set) => (Panicked p, set)
    end
  end.
End Json.

(** ** The lock-guarded set

    Every method takes the lock, calls the unguarded set and releases the
    lock again, so a call on its own sees the lock free before and after;
    the record keeps what the calls change. *)

Record ThreadSafeSet : Type := {
  unsafeSet : ThreadUnsafeSet
}.

Definition newThreadSafeSet : ThreadSafeSet :=
  {| unsafeSet := newThreadUnsafeSet |}.

Definition wrap (r : outcome ThreadUnsafeSet) : outcome ThreadSafeSet :=
  match r with
  | Done u => Done {| unsafeSet := u |}
  | Panicked p => Panicked p
  end.

Module Safe.
Section Ops.
Context `{Strconv}.

Definition Add (val : any) (set : ThreadSafeSet)
  : outcome bool * ThreadSafeSet :=
  let '(ret, u) := Unsafe.Add val (unsafeSet set) in
  (ret, {| unsafeSet := u |}).

Definition Cardinality (set : ThreadSafeSet) : nat :=
  size (dat (unsafeSet set)).

Definition Size (set : ThreadSafeSet) : nat := Unsafe.Size (unsafeSet set).

Definition Clear (set : ThreadSafeSet) : ThreadSafeSet :=
  {| unsafeSet := newThreadUnsafeSet |}.

Definition Contains (set : ThreadSafeSet) (val : list any) : bool :=
  Unsafe.Contains (unsafeSet set) val.

Definition Difference (set other : ThreadSafeSet)
    (ord : list (string * any)) : outcome ThreadSafeSet :=
  let o := other in
  wrap (Unsafe.Difference (unsafeSet set) (unsafeSet o) ord).

Definition Equal (set other : ThreadSafeSet) (ord : list (string * any))
  : bool :=
  let o := other in
  Unsafe.Equal (unsafeSet set) (unsafeSet o) ord.

Definition Intersect (set other : ThreadSafeSet)
    (ord ord_o : list (string * any)) : outcome ThreadSafeSet :=
  let o := other in
  wrap (Unsafe.Intersect (unsafeSet set) (unsafeSet o) ord ord_o).

Definition Remove (i : any) (set : ThreadSafeSet)
  : outcome unit * ThreadSafeSet :=
  match calcHash i with
  | Err err => (Panicked (PanicError err), set)
  | Ok hash =>
    (Done (),
     {| unsafeSet := {| dat := delete hash (dat (unsafeSet set));
                        typ := typ (unsafeSet set) |} |})
  end.

Definition SymmetricDifference (set other : ThreadSafeSet)
    (ord : list (string * any)) : outcome ThreadSafeSet :=
  let o := other in
  wrap (Unsafe.Difference (unsafeSet set) (unsafeSet o) ord).

Definition Union (set other : ThreadSafeSet)
    (ord ord_o : list (string * any)) : outcome ThreadSafeSet :=
  let o := other in
  wrap (Unsafe.Union (unsafeSet set) (unsafeSet o) ord ord_o).

Definition Pop (set : ThreadSafeSet) (ord : list (string * any))
  : (any * bool) * ThreadSafeSet :=
  let '(ret, u) := Unsafe.Pop (unsafeSet set) ord in
  (ret, {| unsafeSet := u |}).

Definition Clone (set : ThreadSafeSet) (ord : list (string * any))
  : outcome ThreadSafeSet :=
  wrap (Unsafe.Clone (unsafeSet set) ord).

Definition IsProperSubset (set other : ThreadSafeSet)
    (ord : list (string * any)) : bool :=
  let o := other in
  Unsafe.IsProperSubset (unsafeSet set) (unsafeSet o) ord.

Definition IsSubset (set other : ThreadSafeSet)
    (ord : list (string * any)) : bool :=
  let o := other in
  Unsafe.IsSubset (unsafeSet set) (unsafeSet o) ord.

(** [other.IsProperSubset(set)] and [other.IsSubset(set)]. *)
Definition IsProperSuperset (set other : ThreadSafeSet)
    (ord_o : list (string * any)) : bool :=
  IsProperSubset other set ord_o.

Definition IsSuperset (set other : ThreadSafeSet)
    (ord_o : list (string * any)) : bool :=
  IsSubset other set ord_o.

Definition Each {St : Type} (set : ThreadSafeSet)
    (cb : any -> St -> bool * St) (ord : list (string * any)) (st : St) : St :=
  Unsafe.each_loop cb ord.*2 st.

Definition ToSlice (set : ThreadSafeSet) (ord : list (string * any))
  : list any := ord.*2.

Definition String_ `{Fmt} (set : ThreadSafeSet) (ord : list (string * any))
  : string :=
  Unsafe.String_ (unsafeSet set) ord.

(** [NewSet(vals...)] of set.go: [s.Add(item)] for every item. *)
Fixpoint add_items (vals : list any) (s : ThreadSafeSet)
  : outcome ThreadSafeSet :=
  match vals with
  | [] => Done s
  | item :: vals =>
    match Add item s with
    | (Done _, s) => add_items vals s
    | (Panicked p, _) => Panicked p
    end
  end.

Definition NewSet (vals : list any) : outcome ThreadSafeSet :=
  let s := newThreadSafeSet in
  add_items vals s.
End Ops.
End Safe.

(** The guarded [MarshalJSON] and [UnmarshalJSON]. *)
Definition Safe_MarshalJSON `{EncodingJson} (set : ThreadSafeSet)
    (ord : list (string * any)) : result document :=
  MarshalJSON (unsafeSet set) ord.

Definition Safe_UnmarshalJSON `{Strconv} (b : document) (set : ThreadSafeSet)
  : outcome (option error) * ThreadSafeSet :=
  let '(err, u) := UnmarshalJSON b (unsafeSet set) in
  (err, {| unsafeSet := u |}).

(** ** Concrete data for the examples

    The examples below run on integers and strings, whose keys and encodings
    never reach the formatters of the two classes. *)

Definition no_floats : Strconv :=
  {| FormatFloat32 := fun _ => "NaN";
     FormatFloat64 := fun _ => "NaN";
     FormatComplex64 := fun _ _ => "(NaN+NaNi)";
     FormatComplex128 := fun _ _ => "(NaN+NaNi)" |}.

Definition integers_only : EncodingJson :=
  {| Marshal_other := fun _ => Err ErrJSON |}.

(** * Properties *)

(** The invariant of a set: every value is stored under its own hash, and
    every value has the type the set is fixed to. *)
Definition coherent `{Strconv} (m : gmap string any) : Prop :=
  ∀ k v, m !! k = Some v → calcHash v = Ok k.

Definition elems_typed (ot : option rtype) (m : gmap string any) : Prop :=
  ∀ k v, m !! k = Some v → TypeOf v = ot.

Definition set_inv `{Strconv} (s : ThreadUnsafeSet) : Prop :=
  coherent (dat s) ∧ elems_typed (typ s) (dat s).

(** [x] is an element of [s], as [Contains] sees it. *)
Definition member `{Strconv} (x : any) (s : ThreadUnsafeSet) : bool :=
  Unsafe.Contains s [x].

(** The values of the integer kinds. *)
Definition integer_value (obj : any) : option Z :=
  match obj with
  | VInt i | VInt8 i | VInt16 i | VInt32 i | VInt64 i
  | VUint i | VUint8 i | VUint16 i | VUint32 i | VUint64 i | VUintptr i =>
    Some i
  | _ => None
  end.

(** The states of an unguarded set that calls of the public methods
    produce.  A call that panics leaves the state it had reached; a method
    that builds a new set hands it out only when it returns. *)
Inductive reachable `{Strconv} : ThreadUnsafeSet → Prop :=
  | reach_NewThreadUnsafeSet vals s :
      Unsafe.NewThreadUnsafeSet vals = Done s → reachable s
  | reach_Add x s : reachable s → reachable (Unsafe.Add x s).2
  | reach_Remove x s : reachable s → reachable (Unsafe.Remove x s).2
  | reach_Clear s : reachable s → reachable (Unsafe.Clear s)
  | reach_Pop s ord :
      reachable s → range_of (dat s) ord → reachable (Unsafe.Pop s ord).2
  | reach_UnmarshalJSON b s : reachable s → reachable (UnmarshalJSON b s).2
  | reach_Clone s ord c :
      reachable s → range_of (dat s) ord →
      Unsafe.Clone s ord = Done c → reachable c
  | reach_Union A B ordA ordB U :
      reachable A → reachable B →
      range_of (dat A) ordA → range_of (dat B) ordB →
      Unsafe.Union A B ordA ordB = Done U → reachable U
  | reach_Intersect A B ordA ordB I :
      reachable A → reachable B →
      range_of (dat A) ordA → range_of (dat B) ordB →
      Unsafe.Intersect A B ordA ordB = Done I → reachable I
  | reach_Difference A B ordA D :
      reachable A → reachable B → range_of (dat A) ordA →
      Unsafe.Difference A B ordA = Done D → reachable D
  | reach_SymmetricDifference A B ordA ordB D :
      reachable A → reachable B →
      range_of (dat A) ordA → range_of (dat B) ordB →
      Unsafe.SymmetricDifference A B ordA ordB = Done D → reachable D.

(** The set [NewThreadUnsafeSet(vals...)] returns, for the examples. *)
Definition example_set (vals : list any) : ThreadUnsafeSet :=
  match @Unsafe.NewThreadUnsafeSet no_floats vals with
  | Done s => s
  | Panicked _ => newThreadUnsafeSet
  end.

Definition ints (l : list Z) : ThreadUnsafeSet := example_set (VInt <$> l).

Definition strs (l : list string) : ThreadUnsafeSet :=
  example_set (VString <$> l).

(** A callback for [Each] that keeps what it is given and stops on the
    values [stop] picks. *)
Definition collect (stop : any -> bool) (obj : any) (seen : list any)
  : bool * list any :=
  (stop obj, seen ++ [obj]).

(** The set [NewSet(vals...)] returns. *)
Definition guarded_ints (l : list Z) : ThreadSafeSet :=
  match @Safe.NewSet no_floats (VInt <$> l) with
  | Done s => s
  | Panicked _ => newThreadSafeSet
  end.

Section Hashing.
Context `{Strconv}.

Lemma calcHash_Ok_hashable obj k :
  calcHash obj = Ok k → isHashableObj obj = true.
Proof. destruct obj; simpl; done. Qed.

Lemma calcHash_Ok_typed obj k : calcHash obj = Ok k → is_Some (TypeOf obj).
Proof. destruct obj; simpl; eauto; done. Qed.

Lemma calcHash_Hashable name payload hash :
  calcHash (VHashable name payload hash) = Ok hash.
Proof. reflexivity. Qed.

(** Apart from [uint8], every value [isHashableObj] accepts has a key,
    and the key of an integer is its decimal numeral. *)
Lemma calcHash_accepted obj :
  isHashableObj obj = true → TypeOf obj ≠ Some TUint8 →
  ∃ k, calcHash obj = Ok k ∧
       ∀ i, integer_value obj = Some i → k = pretty i.
Proof.
  destruct obj; simpl; intros Hh Ht; try done;
    eexists; (split; [reflexivity|]); intros ? [= <-]; reflexivity || done.
Qed.

(** The decimal numeral tells integers apart. *)
Lemma calcHash_int_inj i j : calcHash (VInt i) = calcHash (VInt j) → i = j.
Proof. simpl. unfold Itoa, FormatInt. intros [= Heq]. by apply (inj pretty). Qed.

Lemma calcHash_uint8 i :
  calcHash (VUint8 i) = Err (ErrNotNativeHashable (Some TUint8)).
Proof. reflexivity. Qed.

Lemma calcHash_json_Number lit :
  calcHash (VOpaque "json.Number" lit) = Err ErrNotHashable.
Proof. reflexivity. Qed.
End Hashing.

Section Contains.
Context `{Strconv}.
Implicit Types (s : ThreadUnsafeSet) (v x : any) (k : string).

Lemma Contains_cons s v vals :
  Unsafe.Contains s (v :: vals) = Unsafe.Contains s [v] && Unsafe.Contains s vals.
Proof.
  simpl. destruct (calcHash v); [|done]. by destruct (dat s !! a).
Qed.

Lemma member_true s x :
  member x s = true ↔ ∃ k, calcHash x = Ok k ∧ is_Some (dat s !! k).
Proof.
  unfold member; simpl. split.
  - destruct (calcHash x) as [k|]; [|done].
    destruct (dat s !! k) eqn:E; [|done]. intros _. exists k. by rewrite E.
  - intros (k & -> & [v ->]). done.
Qed.

Lemma member_key s x k :
  calcHash x = Ok k → member x s = bool_decide (is_Some (dat s !! k)).
Proof.
  intros Hk. unfold member; simpl. rewrite Hk.
  destruct (dat s !! k) eqn:E.
  - by rewrite bool_decide_eq_true_2.
  - rewrite bool_decide_eq_false_2; [done|]. by intros [? ?].
Qed.

Lemma member_unhashable s x e : calcHash x = Err e → member x s = false.
Proof. intros Hk. unfold member; simpl. by rewrite Hk. Qed.

Lemma member_stored s k v :
  coherent (dat s) → dat s !! k = Some v → member v s = true.
Proof. intros Hc Hv. apply member_true. exists k. split; eauto. Qed.

Lemma Contains_Forall s vals :
  Unsafe.Contains s vals = true ↔
  Forall (λ v, ∃ k, calcHash v = Ok k ∧ is_Some (dat s !! k)) vals.
Proof.
  induction vals as [|v vals IH].
  - split; [constructor|done].
  - rewrite Contains_cons, andb_true_iff, Forall_cons, IH.
    by rewrite <-member_true.
Qed.
End Contains.

Section Adding.
Context `{Strconv}.
Implicit Types (s acc : ThreadUnsafeSet) (v x : any) (k : string).

(** The three ways [Add] can go. *)
Lemma Add_nil s : Unsafe.Add Nil s = (Panicked PanicZeroValue, s).
Proof. reflexivity. Qed.

Lemma Add_conflict s x t st :
  TypeOf x = Some t → typ s = Some st → st ≠ t →
  Unsafe.Add x s = (Panicked (PanicTypeConflict (Some st) t), s).
Proof.
  intros Hx Hs Hne. unfold Unsafe.Add. rewrite Hx, Hs.
  rewrite bool_decide_eq_true_2; [done|]. split; congruence.
Qed.

Lemma Add_type_accepted s x t :
  TypeOf x = Some t → typ s = None ∨ typ s = Some t →
  Unsafe.Add x s =
    match calcHash x with
    | Err err => (Panicked (PanicError err), {| dat := dat s; typ := Some t |})
    | Ok hash =>
      (Done true, {| dat := <[hash := x]> (dat s); typ := Some t |})
    end.
Proof.
  intros Hx Hs. unfold Unsafe.Add. rewrite Hx.
  rewrite bool_decide_eq_false_2 by (intros [? ?]; destruct Hs; congruence).
  destruct Hs as [Hs|Hs]; rewrite Hs.
  - rewrite bool_decide_eq_true_2 by done. simpl. by destruct (calcHash x).
  - rewrite bool_decide_eq_false_2 by done. rewrite Hs.
    destruct (calcHash x); [done|]. by destruct s; simplify_eq/=.
Qed.

Lemma Add_Done s x t k :
  TypeOf x = Some t → typ s = None ∨ typ s = Some t → calcHash x = Ok k →
  Unsafe.Add x s = (Done true, {| dat := <[k := x]> (dat s); typ := Some t |}).
Proof. intros Hx Hs Hk. by rewrite (Add_type_accepted s x t), Hk. Qed.

(** Whatever [Add] does, it returns [true] or panics, and the map is
    either the old one or the old one with [x] stored under its hash. *)
Lemma Add_cases s x :
  (∃ p, Unsafe.Add x s = (Panicked p, s)) ∨
  (∃ t, TypeOf x = Some t ∧ (typ s = None ∨ typ s = Some t) ∧
     ((∃ e, calcHash x = Err e ∧
        Unsafe.Add x s =
          (Panicked (PanicError e), {| dat := dat s; typ := Some t |})) ∨
      (∃ k, calcHash x = Ok k ∧
        Unsafe.Add x s =
          (Done true, {| dat := <[k := x]> (dat s); typ := Some t |})))).
Proof.
  destruct (TypeOf x) as [t|] eqn:Hx.
  - assert (typ s = None ∨ typ s = Some t ∨ ∃ st, typ s = Some st ∧ st ≠ t)
      as [Hs|[Hs|(st & Hs & Hne)]].
    { destruct (typ s) as [st|]; [|by left].
      destruct (decide (st = t)) as [->|]; eauto. }
    + right. exists t. rewrite (Add_type_accepted s x t) by auto.
      destruct (calcHash x); eauto 10.
    + right. exists t. rewrite (Add_type_accepted s x t) by auto.
      destruct (calcHash x); eauto 10.
    + left. eexists. by apply Add_conflict.
  - left. destruct x; try done. eexists. apply Add_nil.
Qed.

Lemma Add_inv s x : set_inv s → set_inv (Unsafe.Add x s).2.
Proof.
  intros [Hc Ht].
  destruct (Add_cases s x)
    as [[p ->]|(t & Hx & Hs & [(e & He & ->)|(k & Hk & ->)])]; simpl; [done|..].
  - split; [done|]. intros k v Hv. simpl in *.
    specialize (Ht k v Hv). specialize (Hc k v Hv).
    apply calcHash_Ok_typed in Hc as [? ?]. destruct Hs; congruence.
  - split; intros k' v; simpl; rewrite lookup_insert; case_decide as Hk'.
    + intros [= <-]. by subst k'.
    + apply Hc.
    + by intros [= <-].
    + intros Hv. specialize (Ht k' v Hv). specialize (Hc k' v Hv).
      apply calcHash_Ok_typed in Hc as [? ?]. destruct Hs; congruence.
Qed.
End Adding.

Section Ranging.
Context `{Strconv}.
Implicit Types (s acc : ThreadUnsafeSet) (v x : any) (k : string).
Implicit Types (m : gmap string any) (ord : list (string * any)).

Lemma range_of_map_to_list m : range_of m (map_to_list m).
Proof. by unfold range_of. Qed.

Lemma range_of_NoDup m ord : range_of m ord → NoDup ord.*1.
Proof. intros ->. apply NoDup_fst_map_to_list. Qed.

Lemma range_of_elem m ord k v : range_of m ord → (k, v) ∈ ord ↔ m !! k = Some v.
Proof. intros ->. apply elem_of_map_to_list. Qed.

Lemma range_of_list_to_map m ord : range_of m ord → list_to_map ord = m.
Proof.
  intros Hord. rewrite <-(list_to_map_to_list m).
  apply list_to_map_proper; [by eapply range_of_NoDup|done].
Qed.

Lemma range_of_length m ord : range_of m ord → length ord = size m.
Proof. intros ->. by rewrite length_map_to_list. Qed.

Lemma range_of_nil m : range_of m [] → m = ∅.
Proof.
  intros Hord. apply range_of_length in Hord. by apply map_size_empty_iff.
Qed.

Lemma add_each_inv keep objs acc :
  set_inv acc → set_inv (Unsafe.add_each keep objs acc).2.
Proof.
  revert acc. induction objs as [|obj objs IH]; intros acc Hacc; simpl; [done|].
  destruct (keep obj); [|by apply IH].
  pose proof (Add_inv acc obj Hacc) as Hadd.
  destruct (Unsafe.Add obj acc) as [[r|p] acc']; simpl in *; [by apply IH|done].
Qed.

(** Adding entries that are stored under their own hash and share a type
    never panics, and leaves each kept entry under its key. *)
Lemma add_each_entries keep ord acc ot :
  NoDup ord.*1 →
  (∀ k v, (k, v) ∈ ord → calcHash v = Ok k ∧ TypeOf v = ot) →
  typ acc = None ∨ typ acc = ot →
  ∃ acc', Unsafe.add_each keep ord.*2 acc = (Done (), acc') ∧
    (typ acc' = None ∨ typ acc' = ot) ∧
    ∀ k, dat acc' !! k =
      match (list_to_map ord : gmap string any) !! k with
      | Some v => if keep v then Some v else dat acc !! k
      | None => dat acc !! k
      end.
Proof.
  revert acc. induction ord as [|[k0 v0] ord IH]; intros acc Hnd Hord Hacc.
  { exists acc. simpl. split_and!; [done..|]. intros k. by rewrite lookup_empty. }
  rewrite fmap_cons in Hnd. apply NoDup_cons in Hnd as [Hk0 Hnd].
  assert (∀ k v, (k, v) ∈ ord → calcHash v = Ok k ∧ TypeOf v = ot) as Hord'.
  { intros k v Hkv. apply Hord. by right. }
  destruct (Hord k0 v0) as [Hh Ht]; [by left|].
  assert ((list_to_map ord : gmap string any) !! k0 = None) as Hfresh.
  { by apply not_elem_of_list_to_map_1. }
  simpl. destruct (keep v0) eqn:Hkeep.
  - destruct (calcHash_Ok_typed _ _ Hh) as [t Ht'].
    assert (ot = Some t) as -> by congruence.
    rewrite (Add_Done acc v0 t k0) by done.
    destruct (IH {| dat := <[k0:=v0]> (dat acc); typ := Some t |})
      as (acc' & Hrun & Htyp & Hdat); [done|done|by right|].
    exists acc'. split_and!; [done..|]. intros k. rewrite Hdat. simpl.
    destruct (decide (k0 = k)) as [->|Hne].
    + by rewrite Hfresh, !lookup_insert_eq, Hkeep.
    + by rewrite !lookup_insert_ne.
  - destruct (IH acc) as (acc' & Hrun & Htyp & Hdat); [done..|].
    exists acc'. split_and!; [done..|]. intros k. rewrite Hdat.
    destruct (decide (k0 = k)) as [->|Hne].
    + by rewrite Hfresh, lookup_insert_eq, Hkeep.
    + by rewrite lookup_insert_ne.
Qed.

(** The same for a loop over a whole map, in any order. *)
Lemma add_each_range keep m ot ord acc :
  coherent m → elems_typed ot m → range_of m ord →
  typ acc = None ∨ typ acc = ot →
  ∃ acc', Unsafe.add_each keep ord.*2 acc = (Done (), acc') ∧
    (typ acc' = None ∨ typ acc' = ot) ∧
    ∀ k, dat acc' !! k =
      match m !! k with
      | Some v => if keep v then Some v else dat acc !! k
      | None => dat acc !! k
      end.
Proof.
  intros Hc Ht Hord Hacc.
  destruct (add_each_entries keep ord acc ot) as (acc' & ? & ? & Hdat);
    [by eapply range_of_NoDup| |done|].
  { intros k v Hkv. apply (range_of_elem _ _ _ _ Hord) in Hkv. eauto. }
  exists acc'. split_and!; [done..|].
  intros k. by rewrite Hdat, (range_of_list_to_map _ _ Hord).
Qed.
End Ranging.

Section Algebra.
Context `{Strconv}.
Implicit Types (s acc A B : ThreadUnsafeSet) (v x : any) (k : string).
Implicit Types (ord : list (string * any)).

Lemma set_inv_new : set_inv newThreadUnsafeSet.
Proof. split; intros k v; simpl; by rewrite lookup_empty. Qed.

Lemma set_inv_retyped ot : set_inv {| dat := ∅; typ := ot |}.
Proof. split; intros k v; simpl; by rewrite lookup_empty. Qed.

(** A loop whose test on a stored value only depends on the key of
    that value. *)
Lemma add_each_filter keep (P : string → bool) m ot ord acc :
  coherent m → elems_typed ot m → range_of m ord →
  typ acc = None ∨ typ acc = ot →
  (∀ k v, m !! k = Some v → keep v = P k) →
  ∃ acc', Unsafe.add_each keep ord.*2 acc = (Done (), acc') ∧
    (typ acc' = None ∨ typ acc' = ot) ∧
    ∀ k v, dat acc' !! k = Some v ↔
      (m !! k = Some v ∧ P k = true) ∨
      (¬ (is_Some (m !! k) ∧ P k = true) ∧ dat acc !! k = Some v).
Proof.
  intros Hc Ht Hord Hacc Hkeep.
  destruct (add_each_range keep m ot ord acc) as (acc' & ? & ? & Hdat);
    [done..|].
  exists acc'. split_and!; [done..|]. intros k v. rewrite Hdat.
  destruct (m !! k) as [w|] eqn:Hw.
  - rewrite (Hkeep k w Hw). destruct (P k); split.
    + intros [= ->]. by left.
    + intros [[[= ->] _]|[Hn _]]; [done|]. destruct Hn. eauto.
    + intros Hv. right. split; [|done]. by intros [_ ?].
    + by intros [[_ ?]|[_ ?]].
  - split.
    + intros Hv. right. split; [|done]. by intros [[? ?] _].
    + by intros [[? _]|[_ ?]].
Qed.

Lemma keep_member m o k v :
  coherent m → m !! k = Some v →
  Unsafe.Contains o [v] = bool_decide (is_Some (dat o !! k)).
Proof. intros Hc Hv. apply (member_key o v k). eauto. Qed.

Lemma Clone_spec s ord :
  set_inv s → range_of (dat s) ord →
  ∃ c, Unsafe.Clone s ord = Done c ∧ set_inv c ∧ dat c = dat s.
Proof.
  intros [Hc Ht] Hord. unfold Unsafe.Clone.
  pose proof (add_each_inv (λ _, true) ord.*2 _ (set_inv_retyped (typ s))) as Hinv.
  destruct (add_each_filter (λ _, true) (λ _, true) (dat s) (typ s) ord
              {| dat := ∅; typ := typ s |}) as (c & Hrun & _ & Hdat);
    [done|done|done|by right|done|].
  rewrite Hrun in Hinv |- *. exists c. split_and!; [done..|].
  apply map_eq. intros k. apply option_eq. intros v. rewrite Hdat. simpl.
  rewrite lookup_empty. naive_solver.
Qed.

Lemma Difference_spec A B ord :
  set_inv A → range_of (dat A) ord →
  ∃ D, Unsafe.Difference A B ord = Done D ∧ set_inv D ∧
    ∀ k v, dat D !! k = Some v ↔ dat A !! k = Some v ∧ dat B !! k = None.
Proof.
  intros [HcA HtA] Hord. unfold Unsafe.Difference.
  pose proof (add_each_inv (λ obj, negb (Unsafe.Contains B [obj])) ord.*2 _
                set_inv_new) as Hinv.
  destruct (add_each_filter (λ obj, negb (Unsafe.Contains B [obj]))
              (λ k, negb (bool_decide (is_Some (dat B !! k)))) (dat A) (typ A)
              ord newThreadUnsafeSet) as (D & Hrun & Htyp & Hdat);
    [done|done|done|by left| |].
  { intros k v Hv. by rewrite (keep_member (dat A) B k v). }
  rewrite Hrun in Hinv |- *. exists D. split_and!; [done..|].
  intros k v. rewrite Hdat. simpl. rewrite lookup_empty.
  rewrite negb_true_iff, bool_decide_eq_false, <-eq_None_not_Some.
  naive_solver.
Qed.

Lemma Intersect_spec A B ordA ordB :
  set_inv A → set_inv B → range_of (dat A) ordA → range_of (dat B) ordB →
  ∃ I, Unsafe.Intersect A B ordA ordB = Done I ∧ set_inv I ∧
    (∀ k v, dat I !! k = Some v →
       (dat A !! k = Some v ∨ dat B !! k = Some v)) ∧
    ∀ k, is_Some (dat I !! k) ↔ is_Some (dat A !! k) ∧ is_Some (dat B !! k).
Proof.
  intros [HcA HtA] [HcB HtB] HordA HordB. unfold Unsafe.Intersect.
  destruct (decide _) as [Hlt|Hge].
  - pose proof (add_each_inv (λ obj, Unsafe.Contains B [obj]) ordA.*2 _
                  set_inv_new) as Hinv.
    destruct (add_each_filter (λ obj, Unsafe.Contains B [obj])
                (λ k, bool_decide (is_Some (dat B !! k))) (dat A) (typ A)
                ordA newThreadUnsafeSet) as (I & Hrun & Htyp & Hdat);
      [done|done|done|by left| |].
    { intros k v Hv. by rewrite (keep_member (dat A) B k v). }
    rewrite Hrun in Hinv |- *. exists I. split_and!; [done..| |].
    + intros k v. rewrite Hdat. simpl. rewrite lookup_empty. naive_solver.
    + intros k. split.
      * intros [v [[Hv HP]|[_ Hv]]%Hdat];
          [|by simpl in Hv; rewrite lookup_empty in Hv].
        apply bool_decide_eq_true in HP. eauto.
      * intros [[v Hv] Hk]. exists v. apply Hdat. left.
        by rewrite bool_decide_eq_true.
  - pose proof (add_each_inv (λ obj, Unsafe.Contains A [obj]) ordB.*2 _
                  set_inv_new) as Hinv.
    destruct (add_each_filter (λ obj, Unsafe.Contains A [obj])
                (λ k, bool_decide (is_Some (dat A !! k))) (dat B) (typ B)
                ordB newThreadUnsafeSet) as (I & Hrun & Htyp & Hdat);
      [done|done|done|by left| |].
    { intros k v Hv. by rewrite (keep_member (dat B) A k v). }
    rewrite Hrun in Hinv |- *. exists I. split_and!; [done..| |].
    + intros k v. rewrite Hdat. simpl. rewrite lookup_empty. naive_solver.
    + intros k. split.
      * intros [v [[Hv HP]|[_ Hv]]%Hdat];
          [|by simpl in Hv; rewrite lookup_empty in Hv].
        apply bool_decide_eq_true in HP. eauto.
      * intros [Hk [v Hv]]. exists v. apply Hdat. left.
        by rewrite bool_decide_eq_true.
Qed.

(** [Union] and [SymmetricDifference] add the values of both operands to
    one set, so the values have to share a type. *)
Lemma Union_spec A B ot ordA ordB :
  coherent (dat A) → coherent (dat B) →
  elems_typed ot (dat A) → elems_typed ot (dat B) →
  range_of (dat A) ordA → range_of (dat B) ordB →
  ∃ U, Unsafe.Union A B ordA ordB = Done U ∧ set_inv U ∧
    ∀ k v, dat U !! k = Some v ↔
      dat B !! k = Some v ∨ (dat B !! k = None ∧ dat A !! k = Some v).
Proof.
  intros HcA HcB HtA HtB HordA HordB. unfold Unsafe.Union.
  pose proof (add_each_inv (λ _, true) ordA.*2 _ set_inv_new) as Hinv1.
  destruct (add_each_filter (λ _, true) (λ _, true) (dat A) ot ordA
              newThreadUnsafeSet) as (U1 & Hrun1 & Htyp1 & Hdat1);
    [done|done|done|by left|done|].
  rewrite Hrun1 in Hinv1 |- *. simpl in Hinv1.
  pose proof (add_each_inv (λ _, true) ordB.*2 _ Hinv1) as Hinv2.
  destruct (add_each_filter (λ _, true) (λ _, true) (dat B) ot ordB U1)
    as (U & Hrun2 & Htyp2 & Hdat2); [done..|].
  rewrite Hrun2 in Hinv2 |- *. exists U. split_and!; [done..|].
  intros k v. rewrite Hdat2, Hdat1. simpl. rewrite lookup_empty.
  rewrite eq_None_not_Some. naive_solver.
Qed.

Lemma SymmetricDifference_spec A B ordA ordB :
  set_inv A → set_inv B → typ A = typ B →
  range_of (dat A) ordA → range_of (dat B) ordB →
  ∃ D, Unsafe.SymmetricDifference A B ordA ordB = Done D ∧ set_inv D ∧
    ∀ k v, dat D !! k = Some v ↔
      (dat A !! k = Some v ∧ dat B !! k = None) ∨
      (dat B !! k = Some v ∧ dat A !! k = None).
Proof.
  intros [HcA HtA] [HcB HtB] Htyp HordA HordB.
  unfold Unsafe.SymmetricDifference.
  pose proof (add_each_inv (λ obj, negb (Unsafe.Contains B [obj])) ordA.*2 _
                set_inv_new) as Hinv1.
  destruct (add_each_filter (λ obj, negb (Unsafe.Contains B [obj]))
              (λ k, negb (bool_decide (is_Some (dat B !! k)))) (dat A) (typ A)
              ordA newThreadUnsafeSet) as (D1 & Hrun1 & Htyp1 & Hdat1);
    [done|done|done|by left| |].
  { intros k v Hv. by rewrite (keep_member (dat A) B k v). }
  rewrite Hrun1 in Hinv1 |- *. simpl in Hinv1.
  pose proof (add_each_inv (λ obj, negb (Unsafe.Contains A [obj])) ordB.*2 _
                Hinv1) as Hinv2.
  destruct (add_each_filter (λ obj, negb (Unsafe.Contains A [obj]))
              (λ k, negb (bool_decide (is_Some (dat A !! k)))) (dat B) (typ B)
              ordB D1)
    as (D & Hrun2 & Htyp2 & Hdat2); [done|done|done|by rewrite <-Htyp| |].
  { intros k v Hv. by rewrite (keep_member (dat B) A k v). }
  rewrite Hrun2 in Hinv2 |- *. exists D. split_and!; [done..|].
  intros k v. rewrite Hdat2, Hdat1. simpl. rewrite lookup_empty.
  rewrite !negb_true_iff, !bool_decide_eq_false, <-!eq_None_not_Some.
  split; [naive_solver|].
  intros [[HAv HBn]|[HBv HAn]]; [right|left; done].
  split; [|left; done]. intros [[w Hw] _]. congruence.
Qed.

Lemma Remove_inv s x : set_inv s → set_inv (Unsafe.Remove x s).2.
Proof.
  intros [Hc Ht]. unfold Unsafe.Remove. destruct (calcHash x); [|done].
  split; intros k v; simpl; intros [_ Hv]%lookup_delete_Some; eauto.
Qed.

Lemma Pop_inv s ord : set_inv s → set_inv (Unsafe.Pop s ord).2.
Proof.
  intros [Hc Ht]. destruct ord as [|[hash obj] ord]; [done|].
  split; intros k v; simpl; intros [_ Hv]%lookup_delete_Some; eauto.
Qed.

Lemma UnmarshalJSON_inv b s : set_inv s → set_inv (UnmarshalJSON b s).2.
Proof.
  intros Hs. unfold UnmarshalJSON. destruct (Decode b) as [i|]; [|done].
  pose proof (add_each_inv (λ _, true) i s Hs) as Hinv.
  by destruct (Unsafe.add_each _ i s) as [[[]|p] s'].
Qed.

Lemma NewThreadUnsafeSet_inv vals s :
  Unsafe.NewThreadUnsafeSet vals = Done s → set_inv s.
Proof.
  unfold Unsafe.NewThreadUnsafeSet.
  pose proof (add_each_inv (λ _, true) vals _ set_inv_new) as Hinv.
  destruct (Unsafe.add_each _ vals _) as [[[]|p] s']; [|done].
  by intros [= <-].
Qed.
End Algebra.

(** * The claims of the specification *)

(** C1.  [Equal] is meant to hold exactly when the two sets have the same
    cardinality and every element of the first is in the second.  The
    cardinality test of the code is the wrong way round: whenever the
    cardinalities differ, [Equal] answers [true], in the unguarded set and,
    through it, in the guarded one. *)
Theorem Equal_of_different_sizes `{Strconv} (A B : ThreadUnsafeSet) ord :
  Unsafe.Size A ≠ Unsafe.Size B →
  Unsafe.Equal A B ord = true ∧
  Safe.Equal {| unsafeSet := A |} {| unsafeSet := B |} ord = true.
Proof.
  intros Hne. unfold Safe.Equal, Unsafe.Equal; simpl.
  by rewrite decide_True.
Qed.

(** With equal cardinalities the loop of [Equal] decides as intended. *)
Lemma Equal_of_equal_sizes `{Strconv} (A B : ThreadUnsafeSet) ord :
  Unsafe.Size A = Unsafe.Size B → range_of (dat A) ord →
  Unsafe.Equal A B ord = true ↔
  ∀ k v, dat A !! k = Some v → member v B = true.
Proof.
  intros Hsz Hord. unfold Unsafe.Equal. rewrite decide_False by auto.
  rewrite forallb_forall. split.
  - intros Hall k v Hv. apply Hall, list_elem_of_In, list_elem_of_fmap.
    exists (k, v). split; [done|]. by apply (range_of_elem _ _ _ _ Hord).
  - intros Hall v [[k v'] [-> Hkv]]%list_elem_of_In%list_elem_of_fmap.
    apply (range_of_elem _ _ _ _ Hord) in Hkv. by apply (Hall k).
Qed.

(** The unguarded [SymmetricDifference] holds the elements that are in
    exactly one operand. *)
Lemma Unsafe_SymmetricDifference_members `{Strconv} A B ordA ordB :
  set_inv A → set_inv B → typ A = typ B →
  range_of (dat A) ordA → range_of (dat B) ordB →
  ∃ D, Unsafe.SymmetricDifference A B ordA ordB = Done D ∧
    ∀ x, member x D = xorb (member x A) (member x B).
Proof.
  intros HA HB Htyp HordA HordB.
  destruct (SymmetricDifference_spec A B ordA ordB) as (D & -> & _ & Hdat);
    [done..|].
  exists D. split; [done|]. intros x.
  destruct (calcHash x) as [k|e] eqn:Hk.
  - rewrite !(member_key _ x k) by done.
    assert (is_Some (dat D !! k) ↔
            (is_Some (dat A !! k) ∧ dat B !! k = None) ∨
            (is_Some (dat B !! k) ∧ dat A !! k = None)) as HD.
    { unfold is_Some. setoid_rewrite Hdat. naive_solver. }
    destruct (dat A !! k) as [a|], (dat B !! k) as [b|];
      repeat case_bool_decide; simpl; try done; exfalso;
      unfold is_Some in *; naive_solver.
  - by rewrite !(member_unhashable _ x e).
Qed.

(** C2.  An element is in the symmetric difference exactly when it is in
    one operand only.  The unguarded set does that (lemma above); the
    guarded [SymmetricDifference] calls [Difference] and stops there, so
    every element that is in the second operand only is missing from its
    result. *)
Theorem Safe_SymmetricDifference_one_sided `{Strconv}
    (A B : ThreadSafeSet) ord x :
  set_inv (unsafeSet A) → range_of (dat (unsafeSet A)) ord →
  Safe.Contains B [x] = true → Safe.Contains A [x] = false →
  ∃ D, Safe.SymmetricDifference A B ord = Done D ∧
       Safe.SymmetricDifference A B ord = Safe.Difference A B ord ∧
       Safe.Contains D [x] = false.
Proof.
  intros HA Hord HxB HxA. unfold Safe.SymmetricDifference, Safe.Difference.
  destruct (Difference_spec (unsafeSet A) (unsafeSet B) ord) as (D & -> & _ & Hdat);
    [done..|].
  eexists. split_and!; [done..|]. change (member x D = false).
  apply (member_true (unsafeSet B)) in HxB as (k & Hk & HkB).
  rewrite (member_key _ x k) by done. apply bool_decide_eq_false_2.
  intros [v [_ Hn]%Hdat]. rewrite Hn in HkB. by destruct HkB.
Qed.

(** C3.  Every native value the hashability check accepts is meant to
    have a key, so that the fallback branch of [calcHash] is dead.  The
    check lists [uint8], the switch of [calcHash] has no case for it: a
    [uint8] is accepted and then refused by the fallback branch, and [Add]
    and [Remove] abort on it. *)
Theorem uint8_accepted_without_key `{Strconv} (i : Z) (s : ThreadUnsafeSet) :
  isHashableObj (VUint8 i) = true ∧
  calcHash (VUint8 i) = Err (ErrNotNativeHashable (Some TUint8)) ∧
  (Unsafe.Add (VUint8 i) newThreadUnsafeSet).1 =
    Panicked (PanicError (ErrNotNativeHashable (Some TUint8))) ∧
  (Unsafe.Remove (VUint8 i) s).1 =
    Panicked (PanicError (ErrNotNativeHashable (Some TUint8))).
Proof. done. Qed.

(** C5.  [Contains] answers [true] exactly when every argument has a key
    and that key is in the map; an argument without a key makes the answer
    [false].  [Contains] only reads the set: it returns a [bool] and no new
    state, and it has no panicking branch. *)
Theorem Contains_all_keys_present `{Strconv} (S : ThreadUnsafeSet)
    (elements : list any) :
  (Unsafe.Contains S elements = true ↔
     ∀ x, x ∈ elements → ∃ k, calcHash x = Ok k ∧ k ∈ dom (dat S)) ∧
  ((∃ x e, x ∈ elements ∧ calcHash x = Err e) →
     Unsafe.Contains S elements = false).
Proof.
  assert (Unsafe.Contains S elements = true ↔
     ∀ x, x ∈ elements → ∃ k, calcHash x = Ok k ∧ k ∈ dom (dat S)) as Hiff.
  { rewrite Contains_Forall, Forall_forall.
    by setoid_rewrite elem_of_dom. }
  split; [done|].
  intros (x & e & Hx & He). apply not_true_is_false. intros Htrue.
  destruct (proj1 Hiff Htrue x Hx) as (k & Hk & _). congruence.
Qed.

Section Json_facts.
Context `{Strconv} `{EncodingJson}.

Lemma json_Marshal_integer obj i :
  integer_value obj = Some i → json_Marshal obj = Ok (JNumber (pretty i)).
Proof. destruct obj; simpl; intros [= <-]; done. Qed.

Lemma marshal_each_integer objs items obj i :
  marshal_each objs = Ok items → obj ∈ objs → integer_value obj = Some i →
  JNumber (pretty i) ∈ items.
Proof.
  revert items. induction objs as [|o objs IH]; intros items Hm Hin Hi.
  { by apply elem_of_nil in Hin. }
  simpl in Hm. destruct (json_Marshal o) as [b|] eqn:Hb; [|done].
  destruct (marshal_each objs) as [rest|]; [|done].
  injection Hm as <-. apply elem_of_cons in Hin as [<-|Hin].
  - rewrite (json_Marshal_integer obj i Hi) in Hb. injection Hb as <-. by left.
  - right. by apply IH.
Qed.

(** A set never takes a decoded number: its dynamic type is
    [json.Number], which has no key. *)
Lemma Add_json_Number lit s r s' :
  Unsafe.Add (VOpaque "json.Number" lit) s ≠ (Done r, s').
Proof.
  destruct (Add_cases s (VOpaque "json.Number" lit))
    as [[p ->]|(t & _ & _ & [(e & _ & ->)|(k & Hk & _)])]; done.
Qed.

Lemma add_each_json_Number items lit s :
  JNumber lit ∈ items →
  ∃ p s', Unsafe.add_each (λ _, true) (decode_value <$> items) s = (Panicked p, s').
Proof.
  revert s. induction items as [|j items IH]; intros s Hin.
  { by apply elem_of_nil in Hin. }
  rewrite fmap_cons. cbn [Unsafe.add_each].
  destruct (Unsafe.Add (decode_value j) s) as [[r|p] s'] eqn:Hadd; [|eauto].
  apply elem_of_cons in Hin as [<-|Hin]; [|by apply IH].
  by apply Add_json_Number in Hadd.
Qed.
End Json_facts.

(** C4.  Marshalling a set of primitive elements and unmarshalling the
    result is meant to give the set back.  For a set that holds an integer
    the way back does not return: the decoder is told to [UseNumber], every
    number of the array arrives as a [json.Number], and [Add] panics on it
    (or on an element before it). *)
Theorem UnmarshalJSON_panics_on_marshalled_integer `{Strconv} `{EncodingJson}
    (set target : ThreadUnsafeSet) ord k obj i doc :
  range_of (dat set) ord → dat set !! k = Some obj →
  integer_value obj = Some i → MarshalJSON set ord = Ok doc →
  ∃ p target', UnmarshalJSON doc target = (Panicked p, target').
Proof.
  intros Hord Hobj Hi. unfold MarshalJSON.
  destruct (marshal_each ord.*2) as [items|] eqn:Hitems; [|done].
  intros [= <-]. unfold UnmarshalJSON; simpl.
  assert (obj ∈ ord.*2) as Hin.
  { apply list_elem_of_fmap. exists (k, obj). split; [done|].
    by apply (range_of_elem _ _ _ _ Hord). }
  pose proof (marshal_each_integer _ _ _ _ Hitems Hin Hi) as Hnum.
  destruct (add_each_json_Number items (pretty i) target Hnum) as (p & s' & ->).
  eauto.
Qed.

Section Membership.
Context `{Strconv}.
Implicit Types (A B I D : ThreadUnsafeSet) (x : any) (k : string).

(** Membership in a result follows from which keys the result has. *)
Lemma member_by_keys (R A B : ThreadUnsafeSet) (f : bool → bool → bool) :
  f false false = false → f false true = false →
  (∀ k, is_Some (dat R !! k) ↔
        f (bool_decide (is_Some (dat A !! k)))
          (bool_decide (is_Some (dat B !! k))) = true) →
  ∀ x, member x R = f (member x A) (member x B).
Proof.
  intros Hff Hft Hkeys x. destruct (calcHash x) as [k|e] eqn:Hk.
  - rewrite !(member_key _ x k) by done.
    apply eq_true_iff_eq. by rewrite bool_decide_eq_true, Hkeys.
  - rewrite !(member_unhashable _ x e) by done. by rewrite Hff.
Qed.
End Membership.

(** C6.  [Intersect] holds the elements that are in both operands,
    [Difference] those of the first operand whose key the second does not
    have; together they make up the first operand, and the difference has
    no key in common with the second operand. *)
Theorem Intersect_Difference_partition `{Strconv}
    (A B : ThreadUnsafeSet) ordA ordB :
  set_inv A → set_inv B → typ A = typ B →
  range_of (dat A) ordA → range_of (dat B) ordB →
  ∃ I D,
    Unsafe.Intersect A B ordA ordB = Done I ∧
    Unsafe.Difference A B ordA = Done D ∧
    (∀ x, member x I = member x A && member x B) ∧
    (∀ x, member x D = member x A && negb (member x B)) ∧
    (∀ k v, dat D !! k = Some v ↔ dat A !! k = Some v ∧ dat B !! k = None) ∧
    dom (dat D) ∪ dom (dat I) = dom (dat A) ∧
    dom (dat D) ∩ dom (dat B) = ∅ ∧
    (∀ ordD ordI, range_of (dat D) ordD → range_of (dat I) ordI →
       ∃ U, Unsafe.Union D I ordD ordI = Done U ∧
            ∀ x, member x U = member x A).
Proof.
  intros HA HB Htyp HordA HordB.
  destruct (Intersect_spec A B ordA ordB) as (I & HI & HinvI & HIval & HIkey);
    [done..|].
  destruct (Difference_spec A B ordA) as (D & HD & HinvD & HDval); [done..|].
  assert (∀ k, is_Some (dat D !! k) ↔
               is_Some (dat A !! k) ∧ ¬ is_Some (dat B !! k)) as HDkey.
  { intros k. unfold is_Some at 1 2. setoid_rewrite HDval.
    rewrite <-eq_None_not_Some. naive_solver. }
  exists I, D. split_and!; [done..| | |done| | |].
  - apply (member_by_keys I A B andb); [done..|]. intros k.
    by rewrite HIkey, andb_true_iff, !bool_decide_eq_true.
  - apply (member_by_keys D A B (λ a b, a && negb b)); [done..|]. intros k.
    by rewrite HDkey, andb_true_iff, negb_true_iff, bool_decide_eq_true,
      bool_decide_eq_false.
  - apply set_eq. intros k. rewrite elem_of_union, !elem_of_dom, HDkey, HIkey.
    destruct (dat B !! k) as [b|]; [|rewrite <-!eq_None_not_Some].
    + split; [by intros [[? ?]|[? ?]]|]. intros ?. right. eauto.
    + split; [by intros [[? ?]|[? ?]]|]. intros ?. left. eauto.
  - apply set_eq. intros k.
    rewrite elem_of_intersection, !elem_of_dom, HDkey, elem_of_empty.
    naive_solver.
  - intros ordD ordI HordD HordI.
    destruct HA as [HcA HtA], HB as [HcB HtB].
    destruct (Union_spec D I (typ A) ordD ordI) as (U & HU & _ & HUval);
      [apply HinvD|apply HinvI| | |done|done|].
    { intros k v [Hv _]%HDval. eauto. }
    { intros k v [Hv|Hv]%HIval; [eauto|]. rewrite Htyp. eauto. }
    exists U. split; [done|]. intros x.
    destruct (calcHash x) as [k|e] eqn:Hk.
    + rewrite !(member_key _ x k) by done. apply bool_decide_ext.
      unfold is_Some at 1. setoid_rewrite HUval. split.
      * intros [v [Hv|[_ Hv]]].
        -- apply HIkey. eauto.
        -- apply HDkey. eauto.
      * intros HAk. destruct (dat I !! k) as [w|] eqn:Hw; [by eauto|].
        assert (is_Some (dat D !! k)) as [v Hv]; [|by eauto].
        apply HDkey. split; [done|]. intros HBk.
        assert (is_Some (dat I !! k)) as [? ?] by by apply HIkey.
        congruence.
    + by rewrite !(member_unhashable _ x e).
Qed.

(** C7.  [Add] of an element that has a key returns [true] when the
    element's type is the one the set is fixed to, or when no type is fixed
    yet; the element is stored under its key, so the cardinality stays when
    the key was there already.  A set that has been emptied by [Remove] or
    [Pop] keeps its type: only a set without a fixed type takes any type. *)
Theorem Add_returns_true `{Strconv} (set : ThreadUnsafeSet) x t k :
  TypeOf x = Some t → calcHash x = Ok k →
  typ set = None ∨ typ set = Some t →
  ∃ set', Unsafe.Add x set = (Done true, set') ∧
    dat set' = <[k := x]> (dat set) ∧ typ set' = Some t ∧
    (k ∈ dom (dat set) → Unsafe.Cardinality set' = Unsafe.Cardinality set).
Proof.
  intros Hx Hk Hs. rewrite (Add_Done set x t k) by done.
  eexists. split_and!; [done..|]. intros Hin%elem_of_dom.
  unfold Unsafe.Cardinality; simpl. by apply map_size_insert_Some.
Qed.

(** C8.  [Pop] on a set with elements returns one of them and [true];
    the key of that element is gone afterwards, the other entries stay, and
    the cardinality has gone down by one.  On the empty set [Pop] returns
    nothing and [false], and the set stays as it is. *)
Theorem Pop_removes_one `{Strconv} (set : ThreadUnsafeSet) ord :
  set_inv set → range_of (dat set) ord →
  (dat set ≠ ∅ →
     ∃ k v set', Unsafe.Pop set ord = ((v, true), set') ∧
       dat set !! k = Some v ∧ calcHash v = Ok k ∧
       dat set' = delete k (dat set) ∧
       Unsafe.Contains set' [v] = false ∧
       S (Unsafe.Cardinality set') = Unsafe.Cardinality set) ∧
  (dat set = ∅ → Unsafe.Pop set ord = ((Nil, false), set)).
Proof.
  intros [Hc Ht] Hord. split.
  - intros Hne. destruct ord as [|[k v] ord].
    { by apply range_of_nil in Hord. }
    assert (dat set !! k = Some v) as Hv.
    { apply (range_of_elem _ _ _ _ Hord). by left. }
    exists k, v. eexists. split_and!; [done|done|by eauto|done| |].
    + change (member v {| dat := delete k (dat set); typ := typ set |} = false).
      rewrite (member_key _ v k) by eauto. simpl.
      apply bool_decide_eq_false_2. rewrite lookup_delete_eq. by intros [? ?].
    + unfold Unsafe.Cardinality; simpl.
      rewrite map_size_delete_Some by eauto.
      assert (size (dat set) ≠ 0%nat) by by apply map_size_non_empty_iff.
      lia.
  - intros Hempty. rewrite Hempty in Hord.
    unfold range_of in Hord. rewrite map_to_list_empty in Hord.
    by apply Permutation_nil_r in Hord as ->.
Qed.


Section Reachability.
Context `{Strconv}.

Lemma built_inv keep objs acc c :
  set_inv acc → Unsafe.built (Unsafe.add_each keep objs acc) = Done c →
  set_inv c.
Proof.
  intros Hacc. pose proof (add_each_inv keep objs acc Hacc) as Hinv.
  destruct (Unsafe.add_each keep objs acc) as [[[]|p] acc']; [|done].
  by intros [= <-].
Qed.

Lemma two_loops_inv keep1 keep2 objs1 objs2 c :
  match Unsafe.add_each keep1 objs1 newThreadUnsafeSet with
  | (Panicked p, _) => Panicked p
  | (Done _, acc) => Unsafe.built (Unsafe.add_each keep2 objs2 acc)
  end = Done c →
  set_inv c.
Proof.
  pose proof (add_each_inv keep1 objs1 _ set_inv_new) as Hinv.
  destruct (Unsafe.add_each keep1 objs1 _) as [[[]|p] acc]; [|done].
  by apply built_inv.
Qed.

(** Every public method keeps the invariant. *)
Lemma reachable_inv s : reachable s → set_inv s.
Proof.
  induction 1 as [vals s Hnew|x s _ IH|x s _ IH|s _ _|s ord _ IH _|b s _ IH
                 |s ord c _ _ _ Hc|A B ordA ordB U _ _ _ _ _ _ HU
                 |A B ordA ordB I _ IHA _ IHB _ _ HI|A B ordA D _ _ _ _ _ HD
                 |A B ordA ordB D _ _ _ _ _ _ HD].
  - by eapply NewThreadUnsafeSet_inv.
  - by apply Add_inv.
  - by apply Remove_inv.
  - apply set_inv_new.
  - by apply Pop_inv.
  - by apply UnmarshalJSON_inv.
  - eapply built_inv; [|exact Hc]. apply set_inv_retyped.
  - by eapply two_loops_inv.
  - unfold Unsafe.Intersect in HI.
    destruct (decide _); (eapply built_inv; [|exact HI]); apply set_inv_new.
  - eapply built_inv; [|exact HD]. apply set_inv_new.
  - by eapply two_loops_inv.
Qed.
End Reachability.

(** C9.  In every state the public methods produce, each entry of the map
    holds a value whose key is the key it is stored under, so [Contains]
    finds every stored value. *)
Theorem reachable_coherent `{Strconv} (s : ThreadUnsafeSet) k v :
  reachable s → dat s !! k = Some v →
  calcHash v = Ok k ∧ Unsafe.Contains s [v] = true.
Proof.
  intros [Hc _]%reachable_inv Hv. split; [by apply Hc|].
  by apply (member_stored s k v).
Qed.

(** C10.  [Add] records the type of the element before it computes the
    key.  On a set without type and without elements, an element that has
    a type and no key makes [Add] panic with the map still empty and the
    type fixed; from then on [Add] of any element of another type panics
    with a type conflict.  The nil interface has no type: [Add] panics on
    it while asking for the type, and nothing is recorded. *)
Theorem Add_fixes_type_before_hashing `{Strconv} (set : ThreadUnsafeSet) x t e :
  typ set = None → dat set = ∅ → TypeOf x = Some t → calcHash x = Err e →
  ∃ set', Unsafe.Add x set = (Panicked (PanicError e), set') ∧
    dat set' = ∅ ∧ typ set' = Some t ∧
    ∀ y t', TypeOf y = Some t' → t' ≠ t →
      Unsafe.Add y set' = (Panicked (PanicTypeConflict (Some t) t'), set').
Proof.
  intros Hs Hd Hx He. rewrite (Add_type_accepted set x t) by auto. rewrite He.
  eexists. split_and!; [done..|]. intros y t' Hy Hne.
  by apply Add_conflict.
Qed.

(** * Further properties of the code *)

Section Subsets.
Context `{Strconv}.
Implicit Types (A B : ThreadUnsafeSet) (ord : list (string * any)).

(** The loop of [IsSubset] and [Equal]: every value of [A] is found in
    [B] exactly when [B] has every key of [A]. *)
Lemma all_contained A B ord :
  set_inv A → range_of (dat A) ord →
  forallb (λ obj, Unsafe.Contains B [obj]) ord.*2 = true ↔
  dom (dat A) ⊆ dom (dat B).
Proof.
  intros [Hc _] Hord. rewrite forallb_forall. split.
  - intros Hall k [v Hv]%elem_of_dom.
    assert (member v B = true) as Hm.
    { apply Hall, list_elem_of_In, list_elem_of_fmap. exists (k, v).
      split; [done|]. by apply (range_of_elem _ _ _ _ Hord). }
    rewrite (member_key B v k) in Hm by eauto.
    apply bool_decide_eq_true in Hm. by apply elem_of_dom.
  - intros Hsub v [[k v'] [-> Hkv]]%list_elem_of_In%list_elem_of_fmap.
    apply (range_of_elem _ _ _ _ Hord) in Hkv. simpl.
    change (member v' B = true). rewrite (member_key B v' k) by eauto.
    apply bool_decide_eq_true, elem_of_dom, Hsub, elem_of_dom. eauto.
Qed.

Lemma dom_subseteq_size (m1 m2 : gmap string any) :
  dom m1 ⊆ dom m2 → (size m1 ≤ size m2)%nat.
Proof. intros Hsub%subseteq_size. by rewrite !size_dom in Hsub. Qed.

Lemma dom_subset_size (m1 m2 : gmap string any) :
  dom m1 ⊂ dom m2 ↔ dom m1 ⊆ dom m2 ∧ (size m1 < size m2)%nat.
Proof.
  split.
  - intros Hsub. split; [by apply Hsub|].
    apply subset_size in Hsub. by rewrite !size_dom in Hsub.
  - intros [Hsub Hlt]. split; [done|]. intros Hback.
    apply dom_subseteq_size in Hback. lia.
Qed.

Lemma IsSubset_dom A B ord :
  set_inv A → range_of (dat A) ord →
  Unsafe.IsSubset A B ord = true ↔ dom (dat A) ⊆ dom (dat B).
Proof.
  intros HA Hord. unfold Unsafe.IsSubset, Unsafe.Size, Unsafe.Cardinality.
  destruct (decide _) as [Hgt|Hle].
  - split; [done|]. intros Hsub%dom_subseteq_size. lia.
  - by apply all_contained.
Qed.

Lemma IsProperSubset_dom A B ord :
  set_inv A → range_of (dat A) ord →
  Unsafe.IsProperSubset A B ord = true ↔ dom (dat A) ⊂ dom (dat B).
Proof.
  intros HA Hord. unfold Unsafe.IsProperSubset.
  rewrite andb_true_iff, bool_decide_eq_true, IsSubset_dom by done.
  rewrite dom_subset_size. unfold Unsafe.Size, Unsafe.Cardinality. tauto.
Qed.

(** X1.  [IsSubset] answers [true] exactly when every key of the receiver
    is a key of the argument (the cardinality test in front of the loop
    never changes the answer), and [IsProperSubset] exactly when the keys
    of the receiver are a strict subset of the keys of the argument. *)
Theorem IsSubset_iff_keys_included A B ord :
  set_inv A → range_of (dat A) ord →
  (Unsafe.IsSubset A B ord = true ↔ dom (dat A) ⊆ dom (dat B)) ∧
  (Unsafe.IsProperSubset A B ord = true ↔ dom (dat A) ⊂ dom (dat B)).
Proof.
  intros HA Hord. split; [by apply IsSubset_dom|by apply IsProperSubset_dom].
Qed.

(** X2.  [IsSuperset] and [IsProperSuperset] are the two tests with the
    operands exchanged: they range over the argument and hold exactly when
    the keys of the argument are (strictly) included in the keys of the
    receiver. *)
Theorem IsSuperset_iff_keys_include A B ordB :
  set_inv B → range_of (dat B) ordB →
  (Unsafe.IsSuperset A B ordB = true ↔ dom (dat B) ⊆ dom (dat A)) ∧
  (Unsafe.IsProperSuperset A B ordB = true ↔ dom (dat B) ⊂ dom (dat A)).
Proof.
  intros HB Hord.
  assert (Unsafe.IsSuperset A B ordB = true ↔ dom (dat B) ⊆ dom (dat A)) as Hsup.
  { unfold Unsafe.IsSuperset. by apply IsSubset_dom. }
  split; [done|]. unfold Unsafe.IsProperSuperset.
  rewrite andb_true_iff, bool_decide_eq_true, Hsup, dom_subset_size.
  unfold Unsafe.Size, Unsafe.Cardinality. tauto.
Qed.

(** X3.  The four tests of the guarded set decide the same inclusions of
    the sets they guard. *)
Theorem Safe_subset_tests (A B : ThreadSafeSet) ordA ordB :
  set_inv (unsafeSet A) → set_inv (unsafeSet B) →
  range_of (dat (unsafeSet A)) ordA → range_of (dat (unsafeSet B)) ordB →
  (Safe.IsSubset A B ordA = true ↔
     dom (dat (unsafeSet A)) ⊆ dom (dat (unsafeSet B))) ∧
  (Safe.IsProperSubset A B ordA = true ↔
     dom (dat (unsafeSet A)) ⊂ dom (dat (unsafeSet B))) ∧
  (Safe.IsSuperset A B ordB = true ↔
     dom (dat (unsafeSet B)) ⊆ dom (dat (unsafeSet A))) ∧
  (Safe.IsProperSuperset A B ordB = true ↔
     dom (dat (unsafeSet B)) ⊂ dom (dat (unsafeSet A))).
Proof.
  intros HA HB HordA HordB.
  unfold Safe.IsSuperset, Safe.IsProperSuperset, Safe.IsSubset,
    Safe.IsProperSubset.
  split_and!; by (apply IsSubset_dom || apply IsProperSubset_dom).
Qed.

(** X4.  When the two cardinalities are equal, [Equal] answers [true]
    exactly when the two sets have the same keys. *)
Theorem Equal_iff_same_keys A B ord :
  set_inv A → range_of (dat A) ord → Unsafe.Size A = Unsafe.Size B →
  Unsafe.Equal A B ord = true ↔ dom (dat A) = dom (dat B).
Proof.
  intros HA Hord Hsz. unfold Unsafe.Equal. rewrite decide_False by auto.
  rewrite all_contained by done. split; [|by intros ->].
  intros Hsub. apply set_subseteq_size_eq; [done|].
  unfold Unsafe.Size, Unsafe.Cardinality in Hsz. rewrite !size_dom. lia.
Qed.
End Subsets.

Section Mutation.
Context `{Strconv}.
Implicit Types (s : ThreadUnsafeSet) (x y : any) (k : string).

Lemma member_insert s x y k t :
  member y {| dat := <[k := x]> (dat s); typ := t |} = true ↔
  member y s = true ∨ calcHash y = Ok k.
Proof.
  rewrite !member_true. simpl. split.
  - intros (k' & Hy & Hk'). destruct (decide (k = k')) as [->|Hne]; [by right|].
    left. exists k'. by rewrite lookup_insert_ne in Hk'.
  - intros [(k' & Hy & Hk')|Hy].
    + exists k'. split; [done|]. rewrite lookup_insert. case_decide; eauto.
    + exists k. split; [done|]. rewrite lookup_insert_eq. eauto.
Qed.

(** Once a type is fixed, [Add] keeps it, whether it returns or panics. *)
Lemma Add_typ_fixed s x t : typ s = Some t → typ (Unsafe.Add x s).2 = Some t.
Proof.
  intros Hs.
  destruct (Add_cases s x)
    as [[p ->]|(t' & Hx & Ht & [(e & He & ->)|(k & Hk & ->)])]; simpl; [done|..];
    destruct Ht; congruence.
Qed.

Lemma add_each_typ_fixed keep objs s t :
  typ s = Some t → typ (Unsafe.add_each keep objs s).2 = Some t.
Proof.
  revert s. induction objs as [|obj objs IH]; intros s Hs; simpl; [done|].
  destruct (keep obj); [|by apply IH].
  pose proof (Add_typ_fixed s obj t Hs) as Hadd.
  destruct (Unsafe.Add obj s) as [[r|p] s']; simpl in *; [by apply IH|done].
Qed.

(** An untyped set that satisfies the invariant has no elements. *)
Lemma set_inv_untyped s : set_inv s → typ s = None → dat s = ∅.
Proof.
  intros [Hc Ht] Hs. apply map_empty. intros k.
  destruct (dat s !! k) as [v|] eqn:Hv; [|done].
  pose proof (Ht k v Hv) as Htv. apply Hc, calcHash_Ok_typed in Hv as [? ?].
  congruence.
Qed.

(** X5.  When [Add] returns, it returns [true]; the element is then in
    the set, no element has left the set, and the cardinality has grown by
    one at most. *)
Theorem Add_then_Contains s x r s' :
  Unsafe.Add x s = (Done r, s') →
  r = true ∧ Unsafe.Contains s' [x] = true ∧
  (∀ y, Unsafe.Contains s [y] = true → Unsafe.Contains s' [y] = true) ∧
  (Unsafe.Cardinality s ≤ Unsafe.Cardinality s' ≤ S (Unsafe.Cardinality s))%nat.
Proof.
  intros Hadd.
  destruct (Add_cases s x)
    as [[p Hp]|(t & Hx & Ht & [(e & He & Hp)|(k & Hk & Hp)])];
    rewrite Hp in Hadd; try done.
  injection Hadd as <- <-. split; [done|split; [|split]].
  - apply (member_insert s x x k). by right.
  - intros y Hy. apply (member_insert s x y k). by left.
  - unfold Unsafe.Cardinality; simpl. rewrite map_size_insert.
    destruct (dat s !! k); simpl; lia.
Qed.

(** X6.  A second [Add] of the same element changes nothing. *)
Theorem Add_twice s x r s' :
  Unsafe.Add x s = (Done r, s') → Unsafe.Add x s' = (Done true, s').
Proof.
  intros Hadd.
  destruct (Add_cases s x)
    as [[p Hp]|(t & Hx & Ht & [(e & He & Hp)|(k & Hk & Hp)])];
    rewrite Hp in Hadd; try done.
  injection Hadd as <- <-.
  rewrite (Add_Done _ x t k) by (done || by right). simpl.
  by rewrite insert_insert_eq.
Qed.

(** X7.  [Remove] of an element that has a key returns; afterwards the
    element is not in the set, elements with other keys are where they
    were, and the type is the one it was.  When the key was not there the
    set is unchanged, otherwise the cardinality is one less. *)
Theorem Remove_postcondition s x k :
  calcHash x = Ok k →
  ∃ s', Unsafe.Remove x s = (Done (), s') ∧
    Unsafe.Contains s' [x] = false ∧ typ s' = typ s ∧
    (∀ k', k' ≠ k → dat s' !! k' = dat s !! k') ∧
    (dat s !! k = None → s' = s) ∧
    (is_Some (dat s !! k) → S (Unsafe.Cardinality s') = Unsafe.Cardinality s).
Proof.
  intros Hk. unfold Unsafe.Remove. rewrite Hk. eexists.
  split_and!; [done| |done|..].
  - change (member x {| dat := delete k (dat s); typ := typ s |} = false).
    rewrite (member_key _ x k) by done. simpl.
    apply bool_decide_eq_false_2. rewrite lookup_delete_eq. by intros [? ?].
  - intros k' Hne. simpl. by rewrite lookup_delete_ne.
  - intros Hnone. rewrite delete_id by done. by destruct s.
  - intros Hsome. unfold Unsafe.Cardinality; simpl.
    rewrite map_size_delete_Some by done.
    assert (size (dat s) ≠ 0%nat); [|lia].
    apply map_size_non_empty_iff. intros Hem. rewrite Hem in Hsome.
    rewrite lookup_empty in Hsome. by destruct Hsome.
Qed.

(** X8.  [Add] of a new element followed by [Remove] of it gives the
    elements back, but not the state: the set stays fixed to the type of
    the element, also when it had no type before. *)
Theorem Add_then_Remove s x t k :
  TypeOf x = Some t → calcHash x = Ok k →
  typ s = None ∨ typ s = Some t → dat s !! k = None →
  ∃ s1 s2, Unsafe.Add x s = (Done true, s1) ∧
    Unsafe.Remove x s1 = (Done (), s2) ∧
    dat s2 = dat s ∧ typ s2 = Some t.
Proof.
  intros Hx Hk Ht Hfresh. rewrite (Add_Done s x t k) by done.
  unfold Unsafe.Remove. rewrite Hk. do 2 eexists. split_and!; [done..| |done].
  simpl. by apply delete_insert_id.
Qed.

(** X9.  No method but [Clear] changes a type that is fixed: [Add],
    [Remove], [Pop] and [UnmarshalJSON] leave it, whether they return or
    panic. *)
Theorem fixed_type_stays s t x ord b :
  typ s = Some t →
  typ (Unsafe.Add x s).2 = Some t ∧
  typ (Unsafe.Remove x s).2 = Some t ∧
  typ (Unsafe.Pop s ord).2 = Some t ∧
  typ (UnmarshalJSON b s).2 = Some t.
Proof.
  intros Hs. split_and!.
  - by apply Add_typ_fixed.
  - unfold Unsafe.Remove. by destruct (calcHash x).
  - by destruct ord as [|[??] ?].
  - unfold UnmarshalJSON. destruct (Decode b) as [i|]; [|done].
    pose proof (add_each_typ_fixed (λ _, true) i s t Hs) as Hfix.
    by destruct (Unsafe.add_each _ i s) as [[[]|p] s'].
Qed.

(** X10.  After [Clear] the set is empty and takes an element of any
    type, whatever type it was fixed to. *)
Theorem Clear_then_Add s x t k :
  TypeOf x = Some t → calcHash x = Ok k →
  Unsafe.Size (Unsafe.Clear s) = 0%nat ∧
  (∀ y, Unsafe.Contains (Unsafe.Clear s) [y] = false) ∧
  Unsafe.Add x (Unsafe.Clear s) =
    (Done true, {| dat := {[ k := x ]}; typ := Some t |}).
Proof.
  intros Hx Hk. split_and!; [done| |].
  - intros y. unfold Unsafe.Clear. simpl. destruct (calcHash y); [|done].
    by rewrite lookup_empty.
  - unfold Unsafe.Clear. rewrite (Add_Done _ x t k) by (done || by left).
    simpl. by rewrite insert_empty.
Qed.

(** X29.  [Add] of the element [Pop] has returned gives the set back
    as it was before the [Pop]. *)
Theorem Pop_then_Add s ord :
  set_inv s → range_of (dat s) ord → dat s ≠ ∅ →
  ∃ v s', Unsafe.Pop s ord = ((v, true), s') ∧
    Unsafe.Add v s' = (Done true, s).
Proof.
  intros [Hc Ht] Hord Hne. destruct ord as [|[k v] ord].
  { by apply range_of_nil in Hord. }
  assert (dat s !! k = Some v) as Hv.
  { apply (range_of_elem _ _ _ _ Hord). by left. }
  pose proof (Hc k v Hv) as Hk. pose proof (Ht k v Hv) as Htv.
  destruct (calcHash_Ok_typed v k Hk) as [t Hvt].
  exists v. eexists. split; [done|].
  rewrite (Add_Done _ v t k) by (done || (right; simpl; congruence)).
  simpl. rewrite insert_delete_eq, insert_id by done.
  destruct s; simpl in *. f_equal. congruence.
Qed.

(** X11.  [Clone] returns a set with the same elements and the same
    type, in the unguarded and in the guarded set. *)
Theorem Clone_equal (A : ThreadSafeSet) ord :
  set_inv (unsafeSet A) → range_of (dat (unsafeSet A)) ord →
  Unsafe.Clone (unsafeSet A) ord = Done (unsafeSet A) ∧
  Safe.Clone A ord = Done A.
Proof.
  intros HA Hord.
  assert (Unsafe.Clone (unsafeSet A) ord = Done (unsafeSet A)) as Hclone.
  { destruct (Clone_spec (unsafeSet A) ord) as (c & Hc & _ & Hdat); [done..|].
    rewrite Hc. f_equal.
    assert (typ c = typ (unsafeSet A)) as Htyp.
    { unfold Unsafe.Clone in Hc.
      destruct (typ (unsafeSet A)) as [t|] eqn:Ht.
      - pose proof (add_each_typ_fixed (λ _, true) ord.*2
                      {| dat := ∅; typ := Some t |} t eq_refl) as Hfix.
        destruct (Unsafe.add_each _ _ _) as [[[]|p] c']; [|done].
        simpl in *. by injection Hc as <-.
      - pose proof (set_inv_untyped _ HA Ht) as Hem. rewrite Hem in Hord.
        unfold range_of in Hord. rewrite map_to_list_empty in Hord.
        apply Permutation_nil_r in Hord as ->. simpl in Hc.
        by injection Hc as <-. }
    destruct c, (unsafeSet A); simpl in *. by subst. }
  split; [done|]. unfold Safe.Clone. rewrite Hclone. by destruct A.
Qed.
End Mutation.

Section More_algebra.
Context `{Strconv}.
Implicit Types (A B : ThreadUnsafeSet) (x : any) (k : string).

Lemma member_dom A x k :
  calcHash x = Ok k → member x A = bool_decide (k ∈ dom (dat A)).
Proof.
  intros Hk. rewrite (member_key A x k Hk). apply bool_decide_ext.
  by rewrite elem_of_dom.
Qed.

(** X12.  [Union] of two sets of one type returns a set that has the
    keys of both; under a key both have, it holds the value of the
    argument.  Its cardinality is at least that of either operand and at
    most their sum. *)
Theorem Union_members A B ordA ordB :
  set_inv A → set_inv B → typ A = typ B →
  range_of (dat A) ordA → range_of (dat B) ordB →
  ∃ U, Unsafe.Union A B ordA ordB = Done U ∧
    (∀ x, Unsafe.Contains U [x] =
          Unsafe.Contains A [x] || Unsafe.Contains B [x]) ∧
    dom (dat U) = dom (dat A) ∪ dom (dat B) ∧
    (∀ k v, dat B !! k = Some v → dat U !! k = Some v) ∧
    (Unsafe.Cardinality A `max` Unsafe.Cardinality B ≤ Unsafe.Cardinality U)%nat ∧
    (Unsafe.Cardinality U ≤ Unsafe.Cardinality A + Unsafe.Cardinality B)%nat.
Proof.
  intros [HcA HtA] [HcB HtB] Htyp HordA HordB.
  destruct (Union_spec A B (typ A) ordA ordB) as (U & HU & _ & HUval);
    [done|done|done|by rewrite Htyp|done|done|].
  assert (dom (dat U) = dom (dat A) ∪ dom (dat B)) as Hdom.
  { apply set_eq. intros k. rewrite elem_of_union, !elem_of_dom.
    unfold is_Some. setoid_rewrite HUval.
    destruct (dat B !! k) as [b|]; naive_solver. }
  exists U. split_and!; [done| |done| | |].
  - intros x. change (member x U = member x A || member x B).
    destruct (calcHash x) as [k|e] eqn:Hk.
    + rewrite !(member_dom _ x k) by done. rewrite Hdom.
      apply eq_true_iff_eq.
      rewrite orb_true_iff, !bool_decide_eq_true. set_solver.
    + by rewrite !(member_unhashable _ x e).
  - intros k v Hv. apply HUval. by left.
  - unfold Unsafe.Cardinality. rewrite <-!size_dom, Hdom.
    apply Nat.max_lub; apply subseteq_size; set_solver.
  - unfold Unsafe.Cardinality. rewrite <-!size_dom, Hdom.
    rewrite size_union_alt.
    assert (size (dom (dat B) ∖ dom (dat A)) ≤ size (dom (dat B)))%nat; [|lia].
    apply subseteq_size. set_solver.
Qed.

(** X13.  [Union] of two sets that both have elements and are fixed to
    different types panics with a type conflict: the first value of the
    argument is refused by the set that holds the values of the receiver. *)
Theorem Union_of_two_types_panics A B ordA ordB :
  set_inv A → set_inv B → dat A ≠ ∅ → dat B ≠ ∅ → typ A ≠ typ B →
  range_of (dat A) ordA → range_of (dat B) ordB →
  ∃ tb, typ B = Some tb ∧
    Unsafe.Union A B ordA ordB = Panicked (PanicTypeConflict (typ A) tb).
Proof.
  intros [HcA HtA] [HcB HtB] HneA HneB Htyp HordA HordB.
  destruct ordA as [|[ka va] ordA'] eqn:EA.
  { by apply range_of_nil in HordA. }
  destruct ordB as [|[kb vb] ordB'].
  { by apply range_of_nil in HordB. }
  assert (dat A !! ka = Some va) as Hva.
  { apply (range_of_elem _ _ _ _ HordA). by left. }
  assert (dat B !! kb = Some vb) as Hvb.
  { apply (range_of_elem _ _ _ _ HordB). by left. }
  destruct (calcHash_Ok_typed va ka (HcA _ _ Hva)) as [ta Hta].
  destruct (calcHash_Ok_typed vb kb (HcB _ _ Hvb)) as [tb Htb].
  assert (typ A = Some ta) as HtypA by (rewrite <-(HtA ka va Hva); done).
  assert (typ B = Some tb) as HtypB by (rewrite <-(HtB kb vb Hvb); done).
  exists tb. split; [done|]. rewrite <-EA. unfold Unsafe.Union.
  destruct (add_each_filter (λ _, true) (λ _, true) (dat A) (typ A) ordA
              newThreadUnsafeSet) as (U1 & Hrun1 & _ & _);
    [done|done|by subst ordA|by left|done|].
  rewrite Hrun1.
  assert (typ U1 = Some ta) as HU1.
  { rewrite EA in Hrun1. rewrite fmap_cons in Hrun1.
    cbn [Unsafe.add_each] in Hrun1.
    rewrite (Add_Done newThreadUnsafeSet va ta ka) in Hrun1
      by (done || (by left) || by apply HcA).
    pose proof (add_each_typ_fixed (λ _, true) ordA'.*2
      {| dat := <[ka:=va]> (dat newThreadUnsafeSet); typ := Some ta |} ta eq_refl)
      as Hfix.
    by rewrite Hrun1 in Hfix. }
  rewrite fmap_cons. cbn [Unsafe.add_each].
  rewrite (Add_conflict U1 vb tb ta) by (done || congruence).
  simpl. by rewrite HtypA.
Qed.

(** X14.  [Intersect] has the keys the two operands share, [Difference]
    the keys of the receiver that the argument lacks, and the two
    cardinalities add up to the cardinality of the receiver. *)
Theorem Intersect_Difference_cardinality A B ordA ordB :
  set_inv A → set_inv B → range_of (dat A) ordA → range_of (dat B) ordB →
  ∃ I D, Unsafe.Intersect A B ordA ordB = Done I ∧
    Unsafe.Difference A B ordA = Done D ∧
    dom (dat I) = dom (dat A) ∩ dom (dat B) ∧
    dom (dat D) = dom (dat A) ∖ dom (dat B) ∧
    (Unsafe.Cardinality D + Unsafe.Cardinality I = Unsafe.Cardinality A)%nat ∧
    (Unsafe.Cardinality I ≤ Unsafe.Cardinality A `min` Unsafe.Cardinality B)%nat.
Proof.
  intros HA HB HordA HordB.
  destruct (Intersect_spec A B ordA ordB) as (I & HI & _ & _ & HIkey); [done..|].
  destruct (Difference_spec A B ordA) as (D & HD & _ & HDval); [done..|].
  assert (dom (dat I) = dom (dat A) ∩ dom (dat B)) as HdomI.
  { apply set_eq. intros k.
    by rewrite elem_of_intersection, !elem_of_dom, HIkey. }
  assert (dom (dat D) = dom (dat A) ∖ dom (dat B)) as HdomD.
  { apply set_eq. intros k. rewrite elem_of_difference, !elem_of_dom.
    unfold is_Some at 1 2. setoid_rewrite HDval.
    rewrite <-eq_None_not_Some. naive_solver. }
  exists I, D. split_and!; [done..| |].
  - unfold Unsafe.Cardinality. rewrite <-!size_dom, HdomI, HdomD.
    rewrite <-size_union by set_solver. f_equal. apply set_eq. intros k.
    rewrite elem_of_union, elem_of_difference, elem_of_intersection.
    destruct (decide (k ∈ dom (dat B))); naive_solver.
  - unfold Unsafe.Cardinality. rewrite <-!size_dom, HdomI.
    apply Nat.min_glb; apply subseteq_size; set_solver.
Qed.

(** X15.  The unguarded [SymmetricDifference] does not depend on the
    order of its operands: both calls return the same entries, those whose
    key is in one operand only. *)
Theorem SymmetricDifference_commutes A B ordA ordB :
  set_inv A → set_inv B → typ A = typ B →
  range_of (dat A) ordA → range_of (dat B) ordB →
  ∃ D D', Unsafe.SymmetricDifference A B ordA ordB = Done D ∧
    Unsafe.SymmetricDifference B A ordB ordA = Done D' ∧
    dat D = dat D' ∧
    dom (dat D) = (dom (dat A) ∖ dom (dat B)) ∪ (dom (dat B) ∖ dom (dat A)).
Proof.
  intros HA HB Htyp HordA HordB.
  destruct (SymmetricDifference_spec A B ordA ordB) as (D & HD & _ & HDv);
    [done..|].
  destruct (SymmetricDifference_spec B A ordB ordA) as (D' & HD' & _ & HDv');
    [done..|].
  exists D, D'. split_and!; [done..| |].
  - apply map_eq. intros k. apply option_eq. intros v.
    rewrite HDv, HDv'. tauto.
  - apply set_eq. intros k.
    rewrite elem_of_union, !elem_of_difference, !elem_of_dom.
    unfold is_Some at 1. setoid_rewrite HDv.
    rewrite <-!eq_None_not_Some. unfold is_Some. naive_solver.
Qed.
End More_algebra.

Section Constructors.
Context `{Strconv}.
Implicit Types (s acc : ThreadUnsafeSet) (x v : any) (k : string).

(** What a loop of unconditional [Add]s that returned has done. *)
Lemma add_each_Done vals acc acc' :
  Unsafe.add_each (λ _, true) vals acc = (Done (), acc') →
  (∀ v, v ∈ vals → TypeOf v = typ acc' ∧ member v acc' = true) ∧
  (∀ k v, dat acc' !! k = Some v → dat acc !! k = Some v ∨ v ∈ vals) ∧
  (∀ k, is_Some (dat acc !! k) → is_Some (dat acc' !! k)) ∧
  (typ acc ≠ None → typ acc' = typ acc) ∧
  (size (dat acc') ≤ size (dat acc) + length vals)%nat.
Proof.
  revert acc. induction vals as [|x vals IH]; intros acc Hrun.
  { injection Hrun as <-. split_and!; [|by left|done|done|simpl; lia].
    intros v Hv. by apply elem_of_nil in Hv. }
  cbn [Unsafe.add_each] in Hrun.
  destruct (Add_cases acc x)
    as [[p Hp]|(t & Hx & Ht & [(e & He & Hp)|(k & Hk & Hp)])];
    rewrite Hp in Hrun; try done.
  destruct (IH _ Hrun) as (Hin & Hfrom & Hkeep & Htyp & Hsize).
  simpl in *. specialize (Htyp ltac:(done)).
  split_and!.
  - intros v [->|Hv]%elem_of_cons; [|by apply Hin].
    split; [congruence|]. apply member_true. exists k. split; [done|].
    apply Hkeep. rewrite lookup_insert_eq. eauto.
  - intros k' v Hv. destruct (Hfrom k' v Hv) as [Hold|?]; [|right; by right].
    rewrite lookup_insert in Hold. case_decide; [|by left].
    injection Hold as <-. right. by left.
  - intros k' Hk'. apply Hkeep. rewrite lookup_insert. case_decide; eauto.
  - intros Hacc. destruct Ht; congruence.
  - rewrite map_size_insert in Hsize.
    destruct (dat acc !! k); simpl in *; lia.
Qed.

(** A loop of unconditional [Add]s over values of one type, each with a
    key, returns. *)
Lemma add_each_returns vals acc ot :
  (∀ v, v ∈ vals → TypeOf v = ot ∧ ∃ k, calcHash v = Ok k) →
  typ acc = None ∨ typ acc = ot →
  ∃ acc', Unsafe.add_each (λ _, true) vals acc = (Done (), acc').
Proof.
  revert acc. induction vals as [|x vals IH]; intros acc Hvals Hacc; [by eexists|].
  destruct (Hvals x) as [Hx [k Hk]]; [by left|].
  destruct (calcHash_Ok_typed x k Hk) as [t Ht].
  assert (ot = Some t) as -> by congruence.
  cbn [Unsafe.add_each]. rewrite (Add_Done acc x t k) by done.
  apply IH; [|by right]. intros v Hv. apply Hvals. by right.
Qed.

(** X16.  [NewThreadUnsafeSet] returns exactly when its arguments all
    have a key and share one type (an empty argument list included). *)
Theorem NewThreadUnsafeSet_returns_iff (vals : list any) :
  (∃ s, Unsafe.NewThreadUnsafeSet vals = Done s) ↔
  ∃ ot, ∀ v, v ∈ vals → TypeOf v = ot ∧ ∃ k, calcHash v = Ok k.
Proof.
  unfold Unsafe.NewThreadUnsafeSet. split.
  - intros [s Hs].
    destruct (Unsafe.add_each _ vals _) as [[[]|p] s'] eqn:Hrun; [|done].
    apply add_each_Done in Hrun as (Hin & _).
    exists (typ s'). intros v Hv. destruct (Hin v Hv) as [Ht Hm].
    split; [done|]. apply member_true in Hm as (k & Hk & _). eauto.
  - intros [ot Hvals].
    destruct (add_each_returns vals newThreadUnsafeSet ot) as [s ->];
      [done|by left|]. by exists s.
Qed.

(** X17.  The set [NewThreadUnsafeSet] returns holds every argument, holds
    nothing but arguments, is fixed to their type and has no more elements
    than there were arguments. *)
Theorem NewThreadUnsafeSet_contents (vals : list any) s :
  Unsafe.NewThreadUnsafeSet vals = Done s →
  (∀ v, v ∈ vals → Unsafe.Contains s [v] = true ∧ TypeOf v = typ s) ∧
  (∀ k v, dat s !! k = Some v → v ∈ vals) ∧
  (Unsafe.Cardinality s ≤ length vals)%nat.
Proof.
  unfold Unsafe.NewThreadUnsafeSet.
  destruct (Unsafe.add_each _ vals _) as [[[]|p] s'] eqn:Hrun; [|done].
  intros [= <-].
  apply add_each_Done in Hrun as (Hin & Hfrom & _ & _ & Hsize).
  split_and!.
  - intros v Hv. destruct (Hin v Hv). done.
  - intros k v Hv. destruct (Hfrom k v Hv) as [Hold|?]; [|done].
    simpl in Hold. by rewrite lookup_empty in Hold.
  - unfold Unsafe.Cardinality. simpl in Hsize.
    rewrite map_size_empty in Hsize. lia.
Qed.

Lemma add_items_add_each vals (S0 : ThreadSafeSet) :
  Safe.add_items vals S0 =
  wrap (Unsafe.built (Unsafe.add_each (λ _, true) vals (unsafeSet S0))).
Proof.
  revert S0. induction vals as [|x vals IH]; intros S0; [by destruct S0|].
  cbn [Safe.add_items Unsafe.add_each]. unfold Safe.Add.
  destruct (Unsafe.Add x (unsafeSet S0)) as [[r|p] u]; [|done].
  by rewrite IH.
Qed.

(** X18.  [NewSet] guards the set [NewThreadUnsafeSet] builds from the
    same arguments, and panics when that one panics. *)
Theorem NewSet_guards_NewThreadUnsafeSet (vals : list any) :
  Safe.NewSet vals = wrap (Unsafe.NewThreadUnsafeSet vals).
Proof. unfold Safe.NewSet. by rewrite add_items_add_each. Qed.

(** X19.  [ToSlice] returns every stored value once: its length is the
    cardinality, it has no value twice, and its values are those of the
    map. *)
Theorem ToSlice_values s ord :
  set_inv s → range_of (dat s) ord →
  length (Unsafe.ToSlice s ord) = Unsafe.Cardinality s ∧
  NoDup (Unsafe.ToSlice s ord) ∧
  (∀ v, v ∈ Unsafe.ToSlice s ord ↔ ∃ k, dat s !! k = Some v).
Proof.
  intros [Hc _] Hord. unfold Unsafe.ToSlice, Unsafe.Cardinality.
  split_and!.
  - by rewrite length_fmap, (range_of_length _ _ Hord).
  - apply NoDup_fmap_2_strong; [|eapply NoDup_fmap_1, range_of_NoDup; done].
    intros [k1 v1] [k2 v2] H1 H2 Heq. simpl in Heq. subst v2.
    apply (range_of_elem _ _ _ _ Hord) in H1, H2.
    apply Hc in H1, H2. congruence.
  - intros v. rewrite list_elem_of_fmap. split.
    + intros ([k v'] & -> & Hkv). exists k.
      by apply (range_of_elem _ _ _ _ Hord).
    + intros [k Hv]. exists (k, v). split; [done|].
      by apply (range_of_elem _ _ _ _ Hord).
Qed.

(** What a callback has seen: the visited values, in order. *)
Lemma each_loop_visits {St} (f : any → St → bool * St) (stop : any → bool)
    (log : St → list any) objs st :
  (∀ obj st, (f obj st).1 = stop obj ∧ log (f obj st).2 = log st ++ [obj]) →
  ∃ seen rest, objs = seen ++ rest ∧
    log (Unsafe.each_loop f objs st) = log st ++ seen ∧
    (∀ obj, obj ∈ removelast seen → stop obj = false) ∧
    (rest ≠ [] → ∃ obj, last seen = Some obj ∧ stop obj = true) ∧
    ((∀ obj, obj ∈ objs → stop obj = false) → rest = []).
Proof.
  intros Hf. revert st. induction objs as [|obj objs IH]; intros st.
  { exists [], []. split_and!; try done; [by rewrite app_nil_r|].
    intros ? ?%elem_of_nil. done. }
  cbn [Unsafe.each_loop]. destruct (Hf obj st) as [Hstop Hlog].
  destruct (f obj st) as [b st'] eqn:Hfo. simpl in *. subst b.
  destruct (stop obj) eqn:Hs.
  - exists [obj], objs. split_and!; try done.
    + intros ? ?%elem_of_nil. done.
    + intros _. exists obj. done.
    + intros Hall. rewrite Hall in Hs; [done|by left].
  - destruct (IH st') as (seen & rest & -> & Hlog' & Hpre & Hlast & Hall).
    exists (obj :: seen), rest. split_and!.
    + done.
    + by rewrite Hlog', Hlog, <-app_assoc.
    + intros o Ho. destruct seen as [|o' seen]; [by apply elem_of_nil in Ho|].
      change (removelast (obj :: o' :: seen)) with (obj :: removelast (o' :: seen)) in Ho.
      apply elem_of_cons in Ho as [->|Ho]; [done|by apply Hpre].
    + intros Hrest. destruct (Hlast Hrest) as (o & Ho & Hso). exists o.
      split; [|done]. destruct seen; [done|]. by rewrite last_cons_cons.
    + intros Hno. apply Hall. intros o Ho. apply Hno. by right.
Qed.

(** X20.  [Each] hands the values to the callback in range order and
    stops behind the first value for which the callback answers [true];
    when the callback never does, it gets every value. *)
Theorem Each_stops_at_first_true {St} s (f : any → St → bool * St)
    (stop : any → bool) (log : St → list any) ord st :
  (∀ obj st, (f obj st).1 = stop obj ∧ log (f obj st).2 = log st ++ [obj]) →
  ∃ seen rest, Unsafe.ToSlice s ord = seen ++ rest ∧
    log (Unsafe.Each s f ord st) = log st ++ seen ∧
    (∀ obj, obj ∈ removelast seen → stop obj = false) ∧
    (rest ≠ [] → ∃ obj, last seen = Some obj ∧ stop obj = true) ∧
    ((∀ obj, obj ∈ Unsafe.ToSlice s ord → stop obj = false) → rest = []).
Proof. intros Hf. by apply each_loop_visits. Qed.
End Constructors.

Section Json_more.
Context `{Strconv} `{EncodingJson}.
Implicit Types (s : ThreadUnsafeSet) (v : any) (k : string).

Lemma marshal_each_Ok objs items :
  marshal_each objs = Ok items →
  length items = length objs ∧ ∀ obj, obj ∈ objs → ∃ b, json_Marshal obj = Ok b.
Proof.
  revert items. induction objs as [|o objs IH]; intros items Hm; simpl in Hm.
  { injection Hm as <-. split; [done|]. by intros ? ?%elem_of_nil. }
  destruct (json_Marshal o) as [b|] eqn:Hb; [|done].
  destruct (marshal_each objs) as [rest|]; [|done].
  injection Hm as <-. destruct (IH rest eq_refl) as [Hlen Hall].
  split; [simpl; by rewrite Hlen|].
  intros obj [->|Hin]%elem_of_cons; eauto.
Qed.

Lemma marshal_each_Err objs e :
  marshal_each objs = Err e → ∃ obj, obj ∈ objs ∧ json_Marshal obj = Err e.
Proof.
  induction objs as [|o objs IH]; simpl; [done|].
  destruct (json_Marshal o) as [b|e'] eqn:Hb.
  - destruct (marshal_each objs) as [rest|e'']; [done|].
    intros [= <-]. destruct IH as (obj & ? & ?); [done|].
    exists obj. split; [by right|done].
  - intros [= <-]. exists o. split; [by left|done].
Qed.

(** X21.  [MarshalJSON] returns an error exactly when [json.Marshal]
    fails on an element of the set, and the error is that of an element;
    otherwise it writes an array with one item for every element. *)
Theorem MarshalJSON_error_iff s ord :
  range_of (dat s) ord →
  (∀ e, MarshalJSON s ord = Err e →
        ∃ k v, dat s !! k = Some v ∧ json_Marshal v = Err e) ∧
  ((∃ k v e, dat s !! k = Some v ∧ json_Marshal v = Err e) →
   ∃ e, MarshalJSON s ord = Err e) ∧
  (∀ doc, MarshalJSON s ord = Ok doc →
          ∃ items, doc = DocArray items ∧ length items = Unsafe.Cardinality s).
Proof.
  intros Hord. unfold MarshalJSON. split_and!.
  - intros e He. destruct (marshal_each ord.*2) as [|e'] eqn:Hm; [done|].
    injection He as ->.
    destruct (marshal_each_Err _ _ Hm) as (v & Hin & Hv).
    apply list_elem_of_fmap in Hin as ([k v'] & -> & Hkv).
    exists k, v'. split; [|done]. by apply (range_of_elem _ _ _ _ Hord).
  - intros (k & v & e & Hv & He).
    destruct (marshal_each ord.*2) as [items|e'] eqn:Hm; [|by eexists].
    destruct (marshal_each_Ok _ _ Hm) as [_ Hall].
    destruct (Hall v) as [b Hb]; [|congruence].
    apply list_elem_of_fmap. exists (k, v). split; [done|].
    by apply (range_of_elem _ _ _ _ Hord).
  - intros doc Hdoc. destruct (marshal_each ord.*2) as [items|] eqn:Hm; [|done].
    injection Hdoc as <-. exists items. split; [done|].
    destruct (marshal_each_Ok _ _ Hm) as [-> _].
    by rewrite length_fmap, (range_of_length _ _ Hord).
Qed.

(** X22.  A set of values of integer kinds is written as the array of
    its keys, in range order. *)
Theorem MarshalJSON_integers s ord :
  set_inv s → range_of (dat s) ord →
  (∀ k v, dat s !! k = Some v → is_Some (integer_value v)) →
  MarshalJSON s ord = Ok (DocArray ((λ kv, JNumber kv.1) <$> ord)).
Proof.
  intros [Hc _] Hord Hint. unfold MarshalJSON.
  assert (∀ k v, (k, v) ∈ ord → json_Marshal v = Ok (JNumber k)) as Hitem.
  { intros k v Hkv%(range_of_elem _ _ _ _ Hord).
    destruct (Hint k v Hkv) as [i Hi]. rewrite (json_Marshal_integer v i Hi).
    pose proof (Hc k v Hkv) as Hk.
    destruct v; simpl in Hi, Hk; try done; injection Hi as <-;
      by injection Hk as <-. }
  assert (marshal_each ord.*2 = Ok ((λ kv, JNumber kv.1) <$> ord)) as ->; [|done].
  clear Hord. induction ord as [|[k v] ord IH]; [done|].
  rewrite !fmap_cons. cbn [marshal_each fst snd].
  rewrite (Hitem k v) by by left.
  rewrite IH; [done|]. intros k' v' Hin. apply Hitem. by right.
Qed.
End Json_more.

Section Unmarshal.
Context `{Strconv}.
Implicit Types (s : ThreadUnsafeSet) (k : string).

Lemma add_each_app keep (l1 l2 : list any) s :
  Unsafe.add_each keep (l1 ++ l2) s =
  match Unsafe.add_each keep l1 s with
  | (Done _, s') => Unsafe.add_each keep l2 s'
  | (Panicked p, s') => (Panicked p, s')
  end.
Proof.
  revert s. induction l1 as [|x l1 IH]; intros s; [done|].
  rewrite <-app_comm_cons. cbn [Unsafe.add_each].
  destruct (keep x); [|by apply IH].
  destruct (Unsafe.Add x s) as [[r|p] s']; [by apply IH|done].
Qed.

Lemma add_each_strings (l : list string) s :
  typ s = None ∨ typ s = Some TString →
  ∃ s', Unsafe.add_each (λ _, true) (VString <$> l) s = (Done (), s') ∧
    (typ s' = None ∨ typ s' = Some TString) ∧
    (l ≠ [] → typ s' = Some TString) ∧
    ∀ k, dat s' !! k = if bool_decide (k ∈ l) then Some (VString k)
                       else dat s !! k.
Proof.
  revert s. induction l as [|a l IH]; intros s Hs.
  { exists s. by split_and!. }
  rewrite fmap_cons. cbn [Unsafe.add_each].
  rewrite (Add_Done s (VString a) TString a) by done.
  destruct (IH {| dat := <[a:=VString a]> (dat s); typ := Some TString |})
    as (s' & Hrun & Htyp & Hne & Hdat); [by right|].
  exists s'. split_and!; [done|done| |].
  - intros _. destruct l as [|b l]; [|by apply Hne].
    simpl in Hrun. by injection Hrun as <-.
  - intros k. rewrite Hdat. simpl.
    destruct (decide (k ∈ l)) as [Hin|Hnin].
    + rewrite !bool_decide_eq_true_2; [done|by right|done].
    + rewrite (bool_decide_eq_false_2 (k ∈ l)) by done.
      destruct (decide (a = k)) as [->|Hak].
      * rewrite lookup_insert_eq, bool_decide_eq_true_2; [done|by left].
      * rewrite lookup_insert_ne by done.
        rewrite bool_decide_eq_false_2; [done|].
        intros [?|?]%elem_of_cons; congruence.
Qed.

(** X23.  An array of JSON strings is read into a set that has no type
    or is a set of strings: [UnmarshalJSON] returns no error, every string
    of the array is in the set afterwards, under itself as key, and the
    other entries are as before. *)
Theorem UnmarshalJSON_strings (l : list string) s :
  typ s = None ∨ typ s = Some TString →
  ∃ s', UnmarshalJSON (DocArray (JString <$> l)) s = (Done None, s') ∧
    (l ≠ [] → typ s' = Some TString) ∧
    ∀ k, dat s' !! k = if bool_decide (k ∈ l) then Some (VString k)
                       else dat s !! k.
Proof.
  intros Hs. unfold UnmarshalJSON; simpl. rewrite <-list_fmap_compose.
  destruct (add_each_strings l s Hs) as (s' & Hrun & _ & Hne & Hdat).
  change (decode_value ∘ JString) with VString. rewrite Hrun. eauto.
Qed.

(** X24.  [UnmarshalJSON] is not undone when it fails: on an array of
    strings followed by a number it panics at the number, and the strings
    in front of it stay in the set. *)
Theorem UnmarshalJSON_keeps_what_it_added (l : list string) lit rest s :
  typ s = None ∨ typ s = Some TString →
  ∃ p s', UnmarshalJSON (DocArray ((JString <$> l) ++ JNumber lit :: rest)) s
            = (Panicked p, s') ∧
    ∀ k, dat s' !! k = if bool_decide (k ∈ l) then Some (VString k)
                       else dat s !! k.
Proof.
  intros Hs. unfold UnmarshalJSON; simpl.
  rewrite fmap_app, <-list_fmap_compose, fmap_cons.
  change (decode_value ∘ JString) with VString.
  rewrite add_each_app.
  destruct (add_each_strings l s Hs) as (s1 & -> & Htyp & _ & Hdat).
  cbn [Unsafe.add_each decode_value].
  destruct (Add_cases s1 (VOpaque "json.Number" lit))
    as [[p ->]|(t & _ & _ & [(e & _ & ->)|(k & Hk & _)])]; [eauto..|done].
Qed.
End Unmarshal.

Section Keys.
Context `{Strconv}.

(** X25.  [calcHash] returns a key exactly for the values
    [isHashableObj] accepts other than those of type [uint8]; a value of a
    type with a [Hash] method gets what the method returns, and a value
    that is not accepted gets the "not a hashable object" error. *)
Theorem calcHash_Ok_iff (obj : any) :
  ((∃ k, calcHash obj = Ok k) ↔
     isHashableObj obj = true ∧ TypeOf obj ≠ Some TUint8) ∧
  (calcHash obj = Err ErrNotHashable ↔ isHashableObj obj = false) ∧
  (∀ name payload hash, obj = VHashable name payload hash →
     calcHash obj = Ok hash ∧ isNativeHashableObj obj = false).
Proof.
  split_and!.
  - split.
    + intros [k Hk]. destruct obj; simpl in *; done.
    + intros [Hh Ht]. destruct obj; simpl in *; try done; by eexists.
  - destruct obj; simpl; split; done.
  - by intros name payload hash ->.
Qed.

(** X26.  Within one integer kind and among strings, the key tells the
    values apart: two values of the same type with the same key are the
    same value. *)
Theorem key_determines_value (x y : any) k :
  TypeOf x = TypeOf y →
  is_Some (integer_value x) ∨ TypeOf x = Some TString →
  calcHash x = Ok k → calcHash y = Ok k → x = y.
Proof.
  intros Ht Hkind Hx Hy.
  destruct x; destruct Hkind as [[n Hn]|Hs]; simpl in *; try done;
    destruct y; simpl in *; try done;
    injection Hx as <-; injection Hy as Heq;
    unfold Itoa, FormatInt, FormatUint in *;
    try (apply (inj pretty) in Heq); by subst.
Qed.

(** X27.  [Contains] looks at the key only: in a set that holds the
    integer [i], it finds the string of the decimal numeral of [i] and the
    [int64] of the same value, although [Add] refuses both with a type
    conflict. *)
Theorem Contains_ignores_type (s : ThreadUnsafeSet) k i :
  set_inv s → dat s !! k = Some (VInt i) →
  Unsafe.Contains s [VString (pretty i)] = true ∧
  Unsafe.Contains s [VInt64 i] = true ∧
  Unsafe.Add (VString (pretty i)) s =
    (Panicked (PanicTypeConflict (Some TInt) TString), s) ∧
  Unsafe.Add (VInt64 i) s =
    (Panicked (PanicTypeConflict (Some TInt) TInt64), s).
Proof.
  intros [Hc Ht] Hv. pose proof (Hc k _ Hv) as Hk. pose proof (Ht k _ Hv) as Hty.
  simpl in Hk, Hty. injection Hk as <-.
  split_and!.
  - change (member (VString (pretty i)) s = true). apply member_true.
    exists (Itoa i). split; [done|eauto].
  - change (member (VInt64 i) s = true). apply member_true.
    exists (Itoa i). split; [done|eauto].
  - by apply Add_conflict.
  - by apply Add_conflict.
Qed.
End Keys.

Section Printing.
Context `{Fmt}.

Lemma append_cons ch (a b : string) : String ch a +:+ b = String ch (a +:+ b).
Proof. reflexivity. Qed.
Lemma append_nil (b : string) : "" +:+ b = b.
Proof. reflexivity. Qed.
Lemma append_assoc (a b c : string) : (a +:+ b) +:+ c = a +:+ (b +:+ c).
Proof. induction a as [|ch a IH]; [done|]. rewrite !append_cons. by f_equal. Qed.
Lemma length_append (a b : string) :
  String.length (a +:+ b) = (String.length a + String.length b)%nat.
Proof. induction a as [|ch a IH]; [done|]. rewrite append_cons. simpl. by f_equal. Qed.
Lemma substring_prefix (a b : string) :
  String.substring 0 (String.length a) (a +:+ b) = a.
Proof.
  induction a as [|ch a IH]; [by destruct b|]. rewrite append_cons. simpl. by f_equal.
Qed.

Lemma write_each_concat (objs : list any) (builder : string) :
  objs ≠ [] →
  Unsafe.write_each objs builder =
  (builder +:+ String.concat ", " (Sprint <$> objs)) +:+ ", ".
Proof.
  revert builder. induction objs as [|o objs IH]; intros builder Hne; [done|].
  cbn [Unsafe.write_each]. destruct objs as [|o' objs].
  { cbn [Unsafe.write_each fmap list_fmap String.concat].
    by rewrite append_assoc. }
  rewrite IH by done. rewrite !fmap_cons.
  change (String.concat ", " (Sprint o :: Sprint o' :: (Sprint <$> objs)))
    with (Sprint o +:+ ", " +:+
          String.concat ", " (Sprint o' :: (Sprint <$> objs))).
  by rewrite !append_assoc.
Qed.

(** X28.  [String] writes the elements in range order between
    ["goset.ThreadUnsafeSet{ "] and [" }"], with [", "] between two
    elements and nothing behind the last one; the empty set gives the two
    brackets alone.  The guarded set prints the same text. *)
Theorem String_separates (A : ThreadSafeSet) ord :
  Unsafe.String_ (unsafeSet A) ord =
    "goset.ThreadUnsafeSet{ " +:+ String.concat ", " (Sprint <$> ord.*2) +:+ " }" ∧
  Safe.String_ A ord = Unsafe.String_ (unsafeSet A) ord.
Proof.
  split; [|done]. unfold Unsafe.String_.
  destruct (decide (ord.*2 = [])) as [Hnil|Hne].
  - rewrite Hnil. by rewrite bool_decide_eq_false_2 by by intros ?.
  - rewrite bool_decide_eq_true_2 by done.
    rewrite write_each_concat by done.
    rewrite length_append. simpl String.length at 2.
    replace (_ + 2 - 2)%nat with
      (String.length ("goset.ThreadUnsafeSet{ " +:+
                      String.concat ", " (Sprint <$> ord.*2))) by lia.
    by rewrite substring_prefix, append_assoc.
Qed.
End Printing.

(** * Examples

    The statements above at concrete sets of integers and strings. *)

Section Examples.
#[local] Existing Instance no_floats.
#[local] Existing Instance integers_only.

(** [Equal] of a set of two and a set of three integers. *)
Lemma Equal_of_different_sizes_witness :
  @Unsafe.Size (ints [1; 2]) ≠ @Unsafe.Size (ints [1; 2; 3]) ∧
  @Unsafe.Equal no_floats (ints [1; 2]) (ints [1; 2; 3])
    (map_to_list (dat (ints [1; 2]))) = true ∧
  @Safe.Equal no_floats {| unsafeSet := ints [1; 2] |}
    {| unsafeSet := ints [1; 2; 3] |} (map_to_list (dat (ints [1; 2]))) = true.
Proof.
  split; [by vm_compute|].
  apply (@Equal_of_different_sizes no_floats). by vm_compute.
Defined.

(** [NewSet(1, 2, 3)] holds the set [NewThreadUnsafeSet(1, 2, 3)] builds. *)
Lemma guarded_ints_unsafeSet_123 : unsafeSet (guarded_ints [1; 2; 3]) = ints [1; 2; 3].
Proof. by vm_compute. Qed.

(** The guarded symmetric difference of {1, 2, 3} and {2, 3, 4} lacks 4. *)
Lemma Safe_SymmetricDifference_one_sided_witness :
  set_inv (unsafeSet (guarded_ints [1; 2; 3])) ∧
  range_of (dat (unsafeSet (guarded_ints [1; 2; 3])))
    (map_to_list (dat (unsafeSet (guarded_ints [1; 2; 3])))) ∧
  Safe.Contains (guarded_ints [2; 3; 4]) [VInt 4] = true ∧
  Safe.Contains (guarded_ints [1; 2; 3]) [VInt 4] = false ∧
  ∃ D, Safe.SymmetricDifference (guarded_ints [1; 2; 3]) (guarded_ints [2; 3; 4])
         (map_to_list (dat (unsafeSet (guarded_ints [1; 2; 3])))) = Done D ∧
       Safe.SymmetricDifference (guarded_ints [1; 2; 3]) (guarded_ints [2; 3; 4])
         (map_to_list (dat (unsafeSet (guarded_ints [1; 2; 3])))) =
       Safe.Difference (guarded_ints [1; 2; 3]) (guarded_ints [2; 3; 4])
         (map_to_list (dat (unsafeSet (guarded_ints [1; 2; 3])))) ∧
       Safe.Contains D [VInt 4] = false.
Proof.
  assert (set_inv (unsafeSet (guarded_ints [1; 2; 3]))) as Hinv.
  { rewrite guarded_ints_unsafeSet_123.
    by apply (NewThreadUnsafeSet_inv (VInt <$> [1; 2; 3])). }
  split_and!; [done|apply range_of_map_to_list|by vm_compute..|].
  apply (Safe_SymmetricDifference_one_sided
           (guarded_ints [1; 2; 3]) (guarded_ints [2; 3; 4]));
    [done|apply range_of_map_to_list|by vm_compute..].
Defined.

(** The set {1} is written as the array of the number 1, which no set
    reads back. *)
Lemma UnmarshalJSON_panics_on_marshalled_integer_witness :
  range_of (dat (ints [1])) (map_to_list (dat (ints [1]))) ∧
  dat (ints [1]) !! "1" = Some (VInt 1) ∧
  integer_value (VInt 1) = Some 1 ∧
  @MarshalJSON integers_only (ints [1]) (map_to_list (dat (ints [1])))
    = Ok (DocArray [JNumber "1"]) ∧
  ∃ p target', @UnmarshalJSON no_floats (DocArray [JNumber "1"])
                 newThreadUnsafeSet = (Panicked p, target').
Proof.
  split_and!; [apply range_of_map_to_list|by vm_compute..|].
  apply (@UnmarshalJSON_panics_on_marshalled_integer no_floats integers_only
           (ints [1]) newThreadUnsafeSet (map_to_list (dat (ints [1])))
           "1" (VInt 1) 1);
    [apply range_of_map_to_list|by vm_compute..].
Defined.

(** Intersection and difference of {1, 2, 3} and {2, 3, 4}. *)
Lemma Intersect_Difference_partition_witness :
  set_inv (H := no_floats) (ints [1; 2; 3]) ∧
  set_inv (H := no_floats) (ints [2; 3; 4]) ∧
  typ (ints [1; 2; 3]) = typ (ints [2; 3; 4]) ∧
  range_of (dat (ints [1; 2; 3])) (map_to_list (dat (ints [1; 2; 3]))) ∧
  range_of (dat (ints [2; 3; 4])) (map_to_list (dat (ints [2; 3; 4]))) ∧
  ∃ I D,
    @Unsafe.Intersect no_floats (ints [1; 2; 3]) (ints [2; 3; 4])
      (map_to_list (dat (ints [1; 2; 3])))
      (map_to_list (dat (ints [2; 3; 4]))) = Done I ∧
    @Unsafe.Difference no_floats (ints [1; 2; 3]) (ints [2; 3; 4])
      (map_to_list (dat (ints [1; 2; 3]))) = Done D ∧
    (∀ x, member x I = member x (ints [1; 2; 3]) && member x (ints [2; 3; 4])) ∧
    (∀ x, member x D =
          member x (ints [1; 2; 3]) && negb (member x (ints [2; 3; 4]))) ∧
    (∀ k v, dat D !! k = Some v ↔
            dat (ints [1; 2; 3]) !! k = Some v ∧ dat (ints [2; 3; 4]) !! k = None) ∧
    dom (dat D) ∪ dom (dat I) = dom (dat (ints [1; 2; 3])) ∧
    dom (dat D) ∩ dom (dat (ints [2; 3; 4])) = ∅ ∧
    (∀ ordD ordI, range_of (dat D) ordD → range_of (dat I) ordI →
       ∃ U, Unsafe.Union D I ordD ordI = Done U ∧
            ∀ x, member x U = member x (ints [1; 2; 3])).
Proof.
  assert (set_inv (H := no_floats) (ints [1; 2; 3])) as HA.
  { by apply (@NewThreadUnsafeSet_inv no_floats (VInt <$> [1; 2; 3])). }
  assert (set_inv (H := no_floats) (ints [2; 3; 4])) as HB.
  { by apply (@NewThreadUnsafeSet_inv no_floats (VInt <$> [2; 3; 4])). }
  split_and!; [done|done|by vm_compute|apply range_of_map_to_list..|].
  apply (@Intersect_Difference_partition no_floats (ints [1; 2; 3])
           (ints [2; 3; 4]));
    [done|done|by vm_compute|apply range_of_map_to_list..].
Defined.

(** Adding 2 to {1, 2, 3}. *)
Lemma Add_returns_true_witness :
  TypeOf (VInt 2) = Some TInt ∧ @calcHash no_floats (VInt 2) = Ok "2" ∧
  (typ (ints [1; 2; 3]) = None ∨ typ (ints [1; 2; 3]) = Some TInt) ∧
  ∃ set', @Unsafe.Add no_floats (VInt 2) (ints [1; 2; 3]) = (Done true, set') ∧
    dat set' = <["2" := VInt 2]> (dat (ints [1; 2; 3])) ∧ typ set' = Some TInt ∧
    ("2" ∈ dom (dat (ints [1; 2; 3])) →
     Unsafe.Cardinality set' = Unsafe.Cardinality (ints [1; 2; 3])).
Proof.
  split_and!; [done|done|by right|].
  apply (@Add_returns_true no_floats (ints [1; 2; 3]) (VInt 2) TInt "2");
    [done|done|by right].
Defined.

(** C7, as it is written, lets any hashable element into an empty set.
    The set that [Remove] has emptied is empty and still fixed to [int]:
    adding a string to it panics. *)
Lemma Add_to_emptied_set_panics :
  @reachable no_floats (@Unsafe.Remove no_floats (VInt 1) (ints [1])).2 ∧
  Unsafe.Size (@Unsafe.Remove no_floats (VInt 1) (ints [1])).2 = 0%nat ∧
  isHashableObj (VString "a") = true ∧
  @calcHash no_floats (VString "a") = Ok "a" ∧
  (@Unsafe.Add no_floats (VString "a")
     (@Unsafe.Remove no_floats (VInt 1) (ints [1])).2).1
  = Panicked (PanicTypeConflict (Some TInt) TString).
Proof.
  split_and!; [|by vm_compute..].
  apply (@reach_Remove no_floats), (@reach_NewThreadUnsafeSet no_floats [VInt 1]).
  by vm_compute.
Qed.

(** [Pop] on {1, 2, 3}. *)
Lemma Pop_removes_one_witness :
  set_inv (H := no_floats) (ints [1; 2; 3]) ∧
  range_of (dat (ints [1; 2; 3])) (map_to_list (dat (ints [1; 2; 3]))) ∧
  (dat (ints [1; 2; 3]) ≠ ∅ →
     ∃ k v set',
       Unsafe.Pop (ints [1; 2; 3]) (map_to_list (dat (ints [1; 2; 3])))
         = ((v, true), set') ∧
       dat (ints [1; 2; 3]) !! k = Some v ∧ @calcHash no_floats v = Ok k ∧
       dat set' = delete k (dat (ints [1; 2; 3])) ∧
       @Unsafe.Contains no_floats set' [v] = false ∧
       S (Unsafe.Cardinality set') = Unsafe.Cardinality (ints [1; 2; 3])) ∧
  (dat (ints [1; 2; 3]) = ∅ →
     Unsafe.Pop (ints [1; 2; 3]) (map_to_list (dat (ints [1; 2; 3])))
       = ((Nil, false), ints [1; 2; 3])).
Proof.
  assert (set_inv (H := no_floats) (ints [1; 2; 3])) as HA.
  { by apply (@NewThreadUnsafeSet_inv no_floats (VInt <$> [1; 2; 3])). }
  split_and!; [done|apply range_of_map_to_list|..];
    apply (@Pop_removes_one no_floats (ints [1; 2; 3])
             (map_to_list (dat (ints [1; 2; 3]))) HA),
          range_of_map_to_list.
Defined.

(** The entry of 2 in {1, 2, 3}. *)
Lemma reachable_coherent_witness :
  @reachable no_floats (ints [1; 2; 3]) ∧
  dat (ints [1; 2; 3]) !! "2" = Some (VInt 2) ∧
  @calcHash no_floats (VInt 2) = Ok "2" ∧
  @Unsafe.Contains no_floats (ints [1; 2; 3]) [VInt 2] = true.
Proof.
  assert (@reachable no_floats (ints [1; 2; 3])) as Hr.
  { by apply (@reach_NewThreadUnsafeSet no_floats (VInt <$> [1; 2; 3])). }
  split_and!; [done|by vm_compute|..];
    by apply (@reachable_coherent no_floats (ints [1; 2; 3]) "2" (VInt 2) Hr).
Defined.

(** Adding [true] to a new set fixes the set to [bool]. *)
Lemma Add_fixes_type_before_hashing_witness :
  typ newThreadUnsafeSet = None ∧ dat newThreadUnsafeSet = ∅ ∧
  TypeOf (VOpaque "bool" "true") = Some (TUser "bool" false) ∧
  @calcHash no_floats (VOpaque "bool" "true") = Err ErrNotHashable ∧
  ∃ set', @Unsafe.Add no_floats (VOpaque "bool" "true") newThreadUnsafeSet
            = (Panicked (PanicError ErrNotHashable), set') ∧
    dat set' = ∅ ∧ typ set' = Some (TUser "bool" false) ∧
    ∀ y t', TypeOf y = Some t' → t' ≠ TUser "bool" false →
      @Unsafe.Add no_floats y set' =
        (Panicked (PanicTypeConflict (Some (TUser "bool" false)) t'), set').
Proof.
  split_and!; [done..|].
  by apply (@Add_fixes_type_before_hashing no_floats newThreadUnsafeSet
              (VOpaque "bool" "true") (TUser "bool" false) ErrNotHashable).
Defined.

(** C10, as it is written, covers every element without a key.  The nil
    interface is one: [Add(nil)] on a new set panics inside
    [reflect.ValueOf(val).Type()], before the type is assigned, so the set
    stays without type and a later [Add] of an integer returns. *)
Lemma Add_nil_records_no_type :
  typ newThreadUnsafeSet = None ∧ dat newThreadUnsafeSet = ∅ ∧
  @calcHash no_floats Nil = Err ErrNotHashable ∧
  @Unsafe.Add no_floats Nil newThreadUnsafeSet
    = (Panicked PanicZeroValue, newThreadUnsafeSet) ∧
  typ (@Unsafe.Add no_floats Nil newThreadUnsafeSet).2 = None ∧
  @Unsafe.Add no_floats (VInt 1)
    (@Unsafe.Add no_floats Nil newThreadUnsafeSet).2
    = (Done true, ints [1]).
Proof. split_and!; by vm_compute. Qed.

(** The sets of the examples satisfy the invariant. *)
Lemma example_set_inv vals : set_inv (example_set vals).
Proof.
  unfold example_set.
  destruct (Unsafe.NewThreadUnsafeSet vals) as [s|p] eqn:Hs;
    [by eapply NewThreadUnsafeSet_inv|apply set_inv_new].
Qed.


(** {1, 2} is a proper subset of {1, 2, 3}. *)
Lemma IsSubset_iff_keys_included_witness :
  set_inv (ints [1; 2]%Z) ∧ range_of (dat (ints [1; 2]%Z)) (map_to_list (dat (ints [1; 2]%Z))) ∧
  (Unsafe.IsSubset (ints [1; 2]%Z) (ints [1; 2; 3]%Z) (map_to_list (dat (ints [1; 2]%Z))) = true ↔ dom (dat (ints [1; 2]%Z)) ⊆ dom (dat (ints [1; 2; 3]%Z))) ∧
  (Unsafe.IsProperSubset (ints [1; 2]%Z) (ints [1; 2; 3]%Z) (map_to_list (dat (ints [1; 2]%Z))) = true ↔
     dom (dat (ints [1; 2]%Z)) ⊂ dom (dat (ints [1; 2; 3]%Z))).
Proof.
  split_and!; [apply example_set_inv|apply range_of_map_to_list|..];
    apply (IsSubset_iff_keys_included (ints [1; 2]%Z) (ints [1; 2; 3]%Z) (map_to_list (dat (ints [1; 2]%Z))));
    (apply example_set_inv || apply range_of_map_to_list).
Defined.

(** {1, 2, 3} is a proper superset of {1, 2}. *)
Lemma IsSuperset_iff_keys_include_witness :
  set_inv (ints [1; 2]%Z) ∧ range_of (dat (ints [1; 2]%Z)) (map_to_list (dat (ints [1; 2]%Z))) ∧
  (Unsafe.IsSuperset (ints [1; 2; 3]%Z) (ints [1; 2]%Z) (map_to_list (dat (ints [1; 2]%Z))) = true ↔ dom (dat (ints [1; 2]%Z)) ⊆ dom (dat (ints [1; 2; 3]%Z))) ∧
  (Unsafe.IsProperSuperset (ints [1; 2; 3]%Z) (ints [1; 2]%Z) (map_to_list (dat (ints [1; 2]%Z))) = true ↔
     dom (dat (ints [1; 2]%Z)) ⊂ dom (dat (ints [1; 2; 3]%Z))).
Proof.
  split_and!; [apply example_set_inv|apply range_of_map_to_list|..];
    apply (IsSuperset_iff_keys_include (ints [1; 2; 3]%Z) (ints [1; 2]%Z) (map_to_list (dat (ints [1; 2]%Z))));
    (apply example_set_inv || apply range_of_map_to_list).
Defined.

(** The guarded tests on {1, 2} and {1, 2, 3}. *)
Lemma Safe_subset_tests_witness :
  set_inv (unsafeSet {| unsafeSet := (ints [1; 2]%Z) |}) ∧
  set_inv (unsafeSet {| unsafeSet := (ints [1; 2; 3]%Z) |}) ∧
  range_of (dat (ints [1; 2]%Z)) (map_to_list (dat (ints [1; 2]%Z))) ∧ range_of (dat (ints [1; 2; 3]%Z)) (map_to_list (dat (ints [1; 2; 3]%Z))) ∧
  (Safe.IsSubset {| unsafeSet := (ints [1; 2]%Z) |} {| unsafeSet := (ints [1; 2; 3]%Z) |} (map_to_list (dat (ints [1; 2]%Z))) = true ↔
     dom (dat (ints [1; 2]%Z)) ⊆ dom (dat (ints [1; 2; 3]%Z))) ∧
  (Safe.IsProperSubset {| unsafeSet := (ints [1; 2]%Z) |} {| unsafeSet := (ints [1; 2; 3]%Z) |} (map_to_list (dat (ints [1; 2]%Z)))
     = true ↔ dom (dat (ints [1; 2]%Z)) ⊂ dom (dat (ints [1; 2; 3]%Z))) ∧
  (Safe.IsSuperset {| unsafeSet := (ints [1; 2]%Z) |} {| unsafeSet := (ints [1; 2; 3]%Z) |} (map_to_list (dat (ints [1; 2; 3]%Z)))
     = true ↔ dom (dat (ints [1; 2; 3]%Z)) ⊆ dom (dat (ints [1; 2]%Z))) ∧
  (Safe.IsProperSuperset {| unsafeSet := (ints [1; 2]%Z) |} {| unsafeSet := (ints [1; 2; 3]%Z) |} (map_to_list (dat (ints [1; 2; 3]%Z)))
     = true ↔ dom (dat (ints [1; 2; 3]%Z)) ⊂ dom (dat (ints [1; 2]%Z))).
Proof.
  split_and!;
    [apply example_set_inv|apply example_set_inv
    |apply range_of_map_to_list|apply range_of_map_to_list|..];
    apply (Safe_subset_tests {| unsafeSet := (ints [1; 2]%Z) |} {| unsafeSet := (ints [1; 2; 3]%Z) |}
             (map_to_list (dat (ints [1; 2]%Z))) (map_to_list (dat (ints [1; 2; 3]%Z))));
    (apply example_set_inv || apply range_of_map_to_list).
Defined.

(** {1, 2, 3} and {2, 3, 4} have three elements each. *)
Lemma Equal_iff_same_keys_witness :
  set_inv (ints [1; 2; 3]%Z) ∧ range_of (dat (ints [1; 2; 3]%Z)) (map_to_list (dat (ints [1; 2; 3]%Z))) ∧
  Unsafe.Size (ints [1; 2; 3]%Z) = Unsafe.Size (ints [2; 3; 4]%Z) ∧
  (Unsafe.Equal (ints [1; 2; 3]%Z) (ints [2; 3; 4]%Z) (map_to_list (dat (ints [1; 2; 3]%Z))) = true ↔ dom (dat (ints [1; 2; 3]%Z)) = dom (dat (ints [2; 3; 4]%Z))).
Proof.
  split_and!; [apply example_set_inv|apply range_of_map_to_list|by vm_compute|].
  apply (Equal_iff_same_keys (ints [1; 2; 3]%Z) (ints [2; 3; 4]%Z) (map_to_list (dat (ints [1; 2; 3]%Z))));
    [apply example_set_inv|apply range_of_map_to_list|by vm_compute].
Defined.

(** Adding 4 to {1, 2, 3}. *)
Lemma Add_then_Contains_witness :
  Unsafe.Add (VInt 4) (ints [1; 2; 3]%Z) = (Done true, ints [1; 2; 3; 4]) ∧
  true = true ∧ Unsafe.Contains (ints [1; 2; 3; 4]) [VInt 4] = true ∧
  (∀ y, Unsafe.Contains (ints [1; 2; 3]%Z) [y] = true →
        Unsafe.Contains (ints [1; 2; 3; 4]) [y] = true) ∧
  (Unsafe.Cardinality (ints [1; 2; 3]%Z) ≤ Unsafe.Cardinality (ints [1; 2; 3; 4]%Z)
     ≤ S (Unsafe.Cardinality (ints [1; 2; 3]%Z)))%nat.
Proof.
  assert (Unsafe.Add (VInt 4) (ints [1; 2; 3]%Z) = (Done true, ints [1; 2; 3; 4])) as Hadd
    by by vm_compute.
  split; [done|]. exact (Add_then_Contains (ints [1; 2; 3]%Z) (VInt 4) true _ Hadd).
Defined.

Lemma Add_twice_witness :
  Unsafe.Add (VInt 4) (ints [1; 2; 3]%Z) = (Done true, ints [1; 2; 3; 4]) ∧
  Unsafe.Add (VInt 4) (ints [1; 2; 3; 4]) = (Done true, ints [1; 2; 3; 4]).
Proof.
  assert (Unsafe.Add (VInt 4) (ints [1; 2; 3]%Z) = (Done true, ints [1; 2; 3; 4])) as Hadd
    by by vm_compute.
  split; [done|]. exact (Add_twice (ints [1; 2; 3]%Z) (VInt 4) true _ Hadd).
Defined.

(** Removing 2 from {1, 2, 3}. *)
Lemma Remove_postcondition_witness :
  calcHash (VInt 2) = Ok "2" ∧
  ∃ s', Unsafe.Remove (VInt 2) (ints [1; 2; 3]%Z) = (Done (), s') ∧
    Unsafe.Contains s' [VInt 2] = false ∧ typ s' = typ (ints [1; 2; 3]%Z) ∧
    (∀ k', k' ≠ "2" → dat s' !! k' = dat (ints [1; 2; 3]%Z) !! k') ∧
    (dat (ints [1; 2; 3]%Z) !! "2" = None → s' = (ints [1; 2; 3]%Z)) ∧
    (is_Some (dat (ints [1; 2; 3]%Z) !! "2") →
     S (Unsafe.Cardinality s') = Unsafe.Cardinality (ints [1; 2; 3]%Z)).
Proof.
  split; [done|]. by apply (Remove_postcondition (ints [1; 2; 3]%Z) (VInt 2) "2").
Defined.

(** Adding 1 to a new set and removing it again. *)
Lemma Add_then_Remove_witness :
  TypeOf (VInt 1) = Some TInt ∧ calcHash (VInt 1) = Ok "1" ∧
  (typ newThreadUnsafeSet = None ∨ typ newThreadUnsafeSet = Some TInt) ∧
  dat newThreadUnsafeSet !! "1" = None ∧
  ∃ s1 s2, Unsafe.Add (VInt 1) newThreadUnsafeSet = (Done true, s1) ∧
    Unsafe.Remove (VInt 1) s1 = (Done (), s2) ∧
    dat s2 = dat newThreadUnsafeSet ∧ typ s2 = Some TInt.
Proof.
  split_and!; [done|done|by left|done|].
  apply (Add_then_Remove newThreadUnsafeSet (VInt 1) TInt "1");
    [done|done|by left|done].
Defined.

Lemma fixed_type_stays_witness :
  typ (ints [1; 2; 3]%Z) = Some TInt ∧
  typ (Unsafe.Add (VString "a") (ints [1; 2; 3]%Z)).2 = Some TInt ∧
  typ (Unsafe.Remove (VInt 1) (ints [1; 2; 3]%Z)).2 = Some TInt ∧
  typ (Unsafe.Pop (ints [1; 2; 3]%Z) (map_to_list (dat (ints [1; 2; 3]%Z)))).2 = Some TInt ∧
  typ (UnmarshalJSON (DocArray [JString "a"]) (ints [1; 2; 3]%Z)).2 = Some TInt.
Proof.
  split; [by vm_compute|].
  apply (fixed_type_stays (ints [1; 2; 3]%Z) TInt (VString "a")). by vm_compute.
Defined.

(** After [Clear], the set of integers takes a string. *)
Lemma Clear_then_Add_witness :
  TypeOf (VString "a") = Some TString ∧ calcHash (VString "a") = Ok "a" ∧
  Unsafe.Size (Unsafe.Clear (ints [1; 2; 3]%Z)) = 0%nat ∧
  (∀ y, Unsafe.Contains (Unsafe.Clear (ints [1; 2; 3]%Z)) [y] = false) ∧
  Unsafe.Add (VString "a") (Unsafe.Clear (ints [1; 2; 3]%Z)) =
    (Done true, {| dat := {[ "a" := VString "a" ]}; typ := Some TString |}).
Proof.
  split_and!; [done|done|..];
    by apply (Clear_then_Add (ints [1; 2; 3]%Z) (VString "a") TString "a").
Defined.

Lemma Clone_equal_witness :
  set_inv (unsafeSet (guarded_ints [1; 2; 3])) ∧
  range_of (dat (unsafeSet (guarded_ints [1; 2; 3])))
    (map_to_list (dat (unsafeSet (guarded_ints [1; 2; 3])))) ∧
  Unsafe.Clone (unsafeSet (guarded_ints [1; 2; 3]))
    (map_to_list (dat (unsafeSet (guarded_ints [1; 2; 3]))))
    = Done (unsafeSet (guarded_ints [1; 2; 3])) ∧
  Safe.Clone (guarded_ints [1; 2; 3])
    (map_to_list (dat (unsafeSet (guarded_ints [1; 2; 3]))))
    = Done (guarded_ints [1; 2; 3]).
Proof.
  assert (set_inv (unsafeSet (guarded_ints [1; 2; 3]))) as Hinv.
  { rewrite guarded_ints_unsafeSet_123. apply example_set_inv. }
  split_and!; [done|apply range_of_map_to_list|..];
    by apply (Clone_equal (guarded_ints [1; 2; 3])), range_of_map_to_list.
Defined.

(** The union of {1, 2, 3} and {2, 3, 4}. *)
Lemma Union_members_witness :
  set_inv (ints [1; 2; 3]%Z) ∧ set_inv (ints [2; 3; 4]%Z) ∧ typ (ints [1; 2; 3]%Z) = typ (ints [2; 3; 4]%Z) ∧
  range_of (dat (ints [1; 2; 3]%Z)) (map_to_list (dat (ints [1; 2; 3]%Z))) ∧ range_of (dat (ints [2; 3; 4]%Z)) (map_to_list (dat (ints [2; 3; 4]%Z))) ∧
  ∃ U, Unsafe.Union (ints [1; 2; 3]%Z) (ints [2; 3; 4]%Z) (map_to_list (dat (ints [1; 2; 3]%Z))) (map_to_list (dat (ints [2; 3; 4]%Z))) = Done U ∧
    (∀ x, Unsafe.Contains U [x] =
          Unsafe.Contains (ints [1; 2; 3]%Z) [x] || Unsafe.Contains (ints [2; 3; 4]%Z) [x]) ∧
    dom (dat U) = dom (dat (ints [1; 2; 3]%Z)) ∪ dom (dat (ints [2; 3; 4]%Z)) ∧
    (∀ k v, dat (ints [2; 3; 4]%Z) !! k = Some v → dat U !! k = Some v) ∧
    (Unsafe.Cardinality (ints [1; 2; 3]%Z) `max` Unsafe.Cardinality (ints [2; 3; 4]%Z)
       ≤ Unsafe.Cardinality U)%nat ∧
    (Unsafe.Cardinality U
       ≤ Unsafe.Cardinality (ints [1; 2; 3]%Z) + Unsafe.Cardinality (ints [2; 3; 4]%Z))%nat.
Proof.
  split_and!; [apply example_set_inv|apply example_set_inv|by vm_compute
              |apply range_of_map_to_list|apply range_of_map_to_list|].
  apply (Union_members (ints [1; 2; 3]%Z) (ints [2; 3; 4]%Z) (map_to_list (dat (ints [1; 2; 3]%Z))) (map_to_list (dat (ints [2; 3; 4]%Z))));
    [apply example_set_inv|apply example_set_inv|by vm_compute
    |apply range_of_map_to_list|apply range_of_map_to_list].
Defined.

(** The union of a set of integers and a set of strings. *)
Lemma Union_of_two_types_panics_witness :
  set_inv (ints [1; 2; 3]%Z) ∧ set_inv (strs ["a"]) ∧
  dat (ints [1; 2; 3]%Z) ≠ ∅ ∧ dat (strs ["a"]) ≠ ∅ ∧ typ (ints [1; 2; 3]%Z) ≠ typ (strs ["a"]) ∧
  range_of (dat (ints [1; 2; 3]%Z)) (map_to_list (dat (ints [1; 2; 3]%Z))) ∧
  range_of (dat (strs ["a"])) (map_to_list (dat (strs ["a"]))) ∧
  ∃ tb, typ (strs ["a"]) = Some tb ∧
    Unsafe.Union (ints [1; 2; 3]%Z) (strs ["a"]) (map_to_list (dat (ints [1; 2; 3]%Z))) (map_to_list (dat (strs ["a"])))
      = Panicked (PanicTypeConflict (typ (ints [1; 2; 3]%Z)) tb).
Proof.
  split_and!; [apply example_set_inv|apply example_set_inv
              |by vm_compute|by vm_compute|by vm_compute
              |apply range_of_map_to_list|apply range_of_map_to_list|].
  apply (Union_of_two_types_panics (ints [1; 2; 3]%Z) (strs ["a"]));
    [apply example_set_inv|apply example_set_inv
    |by vm_compute|by vm_compute|by vm_compute
    |apply range_of_map_to_list|apply range_of_map_to_list].
Defined.

Lemma Intersect_Difference_cardinality_witness :
  set_inv (ints [1; 2; 3]%Z) ∧ set_inv (ints [2; 3; 4]%Z) ∧
  range_of (dat (ints [1; 2; 3]%Z)) (map_to_list (dat (ints [1; 2; 3]%Z))) ∧ range_of (dat (ints [2; 3; 4]%Z)) (map_to_list (dat (ints [2; 3; 4]%Z))) ∧
  ∃ I D, Unsafe.Intersect (ints [1; 2; 3]%Z) (ints [2; 3; 4]%Z) (map_to_list (dat (ints [1; 2; 3]%Z))) (map_to_list (dat (ints [2; 3; 4]%Z))) = Done I ∧
    Unsafe.Difference (ints [1; 2; 3]%Z) (ints [2; 3; 4]%Z) (map_to_list (dat (ints [1; 2; 3]%Z))) = Done D ∧
    dom (dat I) = dom (dat (ints [1; 2; 3]%Z)) ∩ dom (dat (ints [2; 3; 4]%Z)) ∧
    dom (dat D) = dom (dat (ints [1; 2; 3]%Z)) ∖ dom (dat (ints [2; 3; 4]%Z)) ∧
    (Unsafe.Cardinality D + Unsafe.Cardinality I
       = Unsafe.Cardinality (ints [1; 2; 3]%Z))%nat ∧
    (Unsafe.Cardinality I
       ≤ Unsafe.Cardinality (ints [1; 2; 3]%Z) `min` Unsafe.Cardinality (ints [2; 3; 4]%Z))%nat.
Proof.
  split_and!; [apply example_set_inv|apply example_set_inv
              |apply range_of_map_to_list|apply range_of_map_to_list|].
  apply (Intersect_Difference_cardinality (ints [1; 2; 3]%Z) (ints [2; 3; 4]%Z) (map_to_list (dat (ints [1; 2; 3]%Z))) (map_to_list (dat (ints [2; 3; 4]%Z))));
    [apply example_set_inv|apply example_set_inv
    |apply range_of_map_to_list|apply range_of_map_to_list].
Defined.

Lemma SymmetricDifference_commutes_witness :
  set_inv (ints [1; 2; 3]%Z) ∧ set_inv (ints [2; 3; 4]%Z) ∧ typ (ints [1; 2; 3]%Z) = typ (ints [2; 3; 4]%Z) ∧
  range_of (dat (ints [1; 2; 3]%Z)) (map_to_list (dat (ints [1; 2; 3]%Z))) ∧ range_of (dat (ints [2; 3; 4]%Z)) (map_to_list (dat (ints [2; 3; 4]%Z))) ∧
  ∃ D D', Unsafe.SymmetricDifference (ints [1; 2; 3]%Z) (ints [2; 3; 4]%Z) (map_to_list (dat (ints [1; 2; 3]%Z))) (map_to_list (dat (ints [2; 3; 4]%Z))) = Done D ∧
    Unsafe.SymmetricDifference (ints [2; 3; 4]%Z) (ints [1; 2; 3]%Z) (map_to_list (dat (ints [2; 3; 4]%Z))) (map_to_list (dat (ints [1; 2; 3]%Z))) = Done D' ∧
    dat D = dat D' ∧
    dom (dat D) =
      (dom (dat (ints [1; 2; 3]%Z)) ∖ dom (dat (ints [2; 3; 4]%Z))) ∪ (dom (dat (ints [2; 3; 4]%Z)) ∖ dom (dat (ints [1; 2; 3]%Z))).
Proof.
  split_and!; [apply example_set_inv|apply example_set_inv|by vm_compute
              |apply range_of_map_to_list|apply range_of_map_to_list|].
  apply (SymmetricDifference_commutes (ints [1; 2; 3]%Z) (ints [2; 3; 4]%Z) (map_to_list (dat (ints [1; 2; 3]%Z))) (map_to_list (dat (ints [2; 3; 4]%Z))));
    [apply example_set_inv|apply example_set_inv|by vm_compute
    |apply range_of_map_to_list|apply range_of_map_to_list].
Defined.

(** [NewThreadUnsafeSet(1, 2, 2)]. *)
Lemma NewThreadUnsafeSet_contents_witness :
  Unsafe.NewThreadUnsafeSet [VInt 1; VInt 2; VInt 2] = Done (ints [1; 2]%Z) ∧
  (∀ v, v ∈ [VInt 1; VInt 2; VInt 2] →
        Unsafe.Contains (ints [1; 2]%Z) [v] = true ∧ TypeOf v = typ (ints [1; 2]%Z)) ∧
  (∀ k v, dat (ints [1; 2]%Z) !! k = Some v → v ∈ [VInt 1; VInt 2; VInt 2]) ∧
  (Unsafe.Cardinality (ints [1; 2]%Z) ≤ length [VInt 1; VInt 2; VInt 2])%nat.
Proof.
  assert (Unsafe.NewThreadUnsafeSet [VInt 1; VInt 2; VInt 2] = Done (ints [1; 2]%Z))
    as Hnew by by vm_compute.
  split; [done|].
  exact (NewThreadUnsafeSet_contents [VInt 1; VInt 2; VInt 2] (ints [1; 2]%Z) Hnew).
Defined.

Lemma ToSlice_values_witness :
  set_inv (ints [1; 2; 3]%Z) ∧ range_of (dat (ints [1; 2; 3]%Z)) (map_to_list (dat (ints [1; 2; 3]%Z))) ∧
  length (Unsafe.ToSlice (ints [1; 2; 3]%Z) (map_to_list (dat (ints [1; 2; 3]%Z)))) = Unsafe.Cardinality (ints [1; 2; 3]%Z) ∧
  NoDup (Unsafe.ToSlice (ints [1; 2; 3]%Z) (map_to_list (dat (ints [1; 2; 3]%Z)))) ∧
  (∀ v, v ∈ Unsafe.ToSlice (ints [1; 2; 3]%Z) (map_to_list (dat (ints [1; 2; 3]%Z))) ↔ ∃ k, dat (ints [1; 2; 3]%Z) !! k = Some v).
Proof.
  split_and!; [apply example_set_inv|apply range_of_map_to_list|..];
    apply (ToSlice_values (ints [1; 2; 3]%Z) (map_to_list (dat (ints [1; 2; 3]%Z))));
    (apply example_set_inv || apply range_of_map_to_list).
Defined.

(** A callback that keeps the values and stops on 1. *)
Lemma Each_stops_at_first_true_witness :
  (∀ obj st,
     (collect (λ o, bool_decide (o = VInt 1)) obj st).1
       = bool_decide (obj = VInt 1) ∧
     id (collect (λ o, bool_decide (o = VInt 1)) obj st).2 = id st ++ [obj]) ∧
  ∃ seen rest, Unsafe.ToSlice (ints [1; 2; 3]%Z) (map_to_list (dat (ints [1; 2; 3]%Z))) = seen ++ rest ∧
    id (Unsafe.Each (ints [1; 2; 3]%Z) (collect (λ o, bool_decide (o = VInt 1))) (map_to_list (dat (ints [1; 2; 3]%Z))) [])
      = id [] ++ seen ∧
    (∀ obj, obj ∈ removelast seen → bool_decide (obj = VInt 1) = false) ∧
    (rest ≠ [] → ∃ obj, last seen = Some obj ∧ bool_decide (obj = VInt 1) = true) ∧
    ((∀ obj, obj ∈ Unsafe.ToSlice (ints [1; 2; 3]%Z) (map_to_list (dat (ints [1; 2; 3]%Z))) →
             bool_decide (obj = VInt 1) = false) → rest = []).
Proof.
  split; [done|].
  by apply (Each_stops_at_first_true (ints [1; 2; 3]%Z)
              (collect (λ o, bool_decide (o = VInt 1)))
              (λ o, bool_decide (o = VInt 1)) id (map_to_list (dat (ints [1; 2; 3]%Z))) []).
Defined.

Lemma MarshalJSON_error_iff_witness :
  range_of (dat (ints [1; 2; 3]%Z)) (map_to_list (dat (ints [1; 2; 3]%Z))) ∧
  (∀ e, MarshalJSON (ints [1; 2; 3]%Z) (map_to_list (dat (ints [1; 2; 3]%Z))) = Err e →
        ∃ k v, dat (ints [1; 2; 3]%Z) !! k = Some v ∧ json_Marshal v = Err e) ∧
  ((∃ k v e, dat (ints [1; 2; 3]%Z) !! k = Some v ∧ json_Marshal v = Err e) →
   ∃ e, MarshalJSON (ints [1; 2; 3]%Z) (map_to_list (dat (ints [1; 2; 3]%Z))) = Err e) ∧
  (∀ doc, MarshalJSON (ints [1; 2; 3]%Z) (map_to_list (dat (ints [1; 2; 3]%Z))) = Ok doc →
          ∃ items, doc = DocArray items ∧
                   length items = Unsafe.Cardinality (ints [1; 2; 3]%Z)).
Proof.
  split; [apply range_of_map_to_list|].
  apply (MarshalJSON_error_iff (ints [1; 2; 3]%Z) (map_to_list (dat (ints [1; 2; 3]%Z)))), range_of_map_to_list.
Defined.

Lemma MarshalJSON_integers_witness :
  set_inv (ints [1; 2; 3]%Z) ∧ range_of (dat (ints [1; 2; 3]%Z)) (map_to_list (dat (ints [1; 2; 3]%Z))) ∧
  (∀ k v, dat (ints [1; 2; 3]%Z) !! k = Some v → is_Some (integer_value v)) ∧
  MarshalJSON (ints [1; 2; 3]%Z) (map_to_list (dat (ints [1; 2; 3]%Z))) = Ok (DocArray ((λ kv, JNumber kv.1) <$> (map_to_list (dat (ints [1; 2; 3]%Z))))).
Proof.
  assert (∀ k v, dat (ints [1; 2; 3]%Z) !! k = Some v → is_Some (integer_value v)) as Hint.
  { intros k v Hv.
    destruct (add_each_Done (VInt <$> [1; 2; 3]%Z) newThreadUnsafeSet (ints [1; 2; 3]%Z))
      as (_ & Hfrom & _); [by vm_compute|].
    apply Hfrom in Hv as [Hv|Hv]; [by simpl in Hv; rewrite lookup_empty in Hv|].
    apply list_elem_of_fmap in Hv as (i & -> & _). by eexists. }
  split_and!; [apply example_set_inv|apply range_of_map_to_list|done|].
  apply (MarshalJSON_integers (ints [1; 2; 3]%Z) (map_to_list (dat (ints [1; 2; 3]%Z))));
    [apply example_set_inv|apply range_of_map_to_list|done].
Defined.

(** Reading ["a", "b"] into a new set. *)
Lemma UnmarshalJSON_strings_witness :
  (typ newThreadUnsafeSet = None ∨ typ newThreadUnsafeSet = Some TString) ∧
  ∃ s', UnmarshalJSON (DocArray (JString <$> ["a"; "b"])) newThreadUnsafeSet
          = (Done None, s') ∧
    (["a"; "b"] ≠ [] → typ s' = Some TString) ∧
    ∀ k, dat s' !! k = if bool_decide (k ∈ ["a"; "b"]) then Some (VString k)
                       else dat newThreadUnsafeSet !! k.
Proof.
  split; [by left|].
  apply (UnmarshalJSON_strings ["a"; "b"] newThreadUnsafeSet). by left.
Defined.

(** Reading ["a", 1, "b"] into a new set. *)
Lemma UnmarshalJSON_keeps_what_it_added_witness :
  (typ newThreadUnsafeSet = None ∨ typ newThreadUnsafeSet = Some TString) ∧
  ∃ p s', UnmarshalJSON
            (DocArray ((JString <$> ["a"]) ++ JNumber "1" :: [JString "b"]))
            newThreadUnsafeSet = (Panicked p, s') ∧
    ∀ k, dat s' !! k = if bool_decide (k ∈ ["a"]) then Some (VString k)
                       else dat newThreadUnsafeSet !! k.
Proof.
  split; [by left|].
  apply (UnmarshalJSON_keeps_what_it_added ["a"] "1" [JString "b"]
           newThreadUnsafeSet). by left.
Defined.

Lemma key_determines_value_witness :
  TypeOf (VInt64 (-5)) = TypeOf (VInt64 (-5)) ∧
  (is_Some (integer_value (VInt64 (-5))) ∨
   TypeOf (VInt64 (-5)) = Some TString) ∧
  calcHash (VInt64 (-5)) = Ok "-5" ∧ calcHash (VInt64 (-5)) = Ok "-5" ∧
  VInt64 (-5) = VInt64 (-5).
Proof.
  split_and!; [done|by left; eexists|done|done|].
  apply (key_determines_value (VInt64 (-5)) (VInt64 (-5)) "-5");
    [done|by left; eexists|done|done].
Defined.

(** The set {1, 2, 3} "contains" the string 2 and the 64-bit 2. *)
Lemma Contains_ignores_type_witness :
  set_inv (ints [1; 2; 3]%Z) ∧ dat (ints [1; 2; 3]%Z) !! "2" = Some (VInt 2) ∧
  Unsafe.Contains (ints [1; 2; 3]%Z) [VString (pretty 2%Z)] = true ∧
  Unsafe.Contains (ints [1; 2; 3]%Z) [VInt64 2] = true ∧
  Unsafe.Add (VString (pretty 2%Z)) (ints [1; 2; 3]%Z) =
    (Panicked (PanicTypeConflict (Some TInt) TString), (ints [1; 2; 3]%Z)) ∧
  Unsafe.Add (VInt64 2) (ints [1; 2; 3]%Z) =
    (Panicked (PanicTypeConflict (Some TInt) TInt64), (ints [1; 2; 3]%Z)).
Proof.
  split_and!; [apply example_set_inv|by vm_compute|..];
    apply (Contains_ignores_type (ints [1; 2; 3]%Z) "2" 2);
    (apply example_set_inv || by vm_compute).
Defined.

Lemma Pop_then_Add_witness :
  set_inv (ints [1; 2; 3]%Z) ∧ range_of (dat (ints [1; 2; 3]%Z)) (map_to_list (dat (ints [1; 2; 3]%Z))) ∧ dat (ints [1; 2; 3]%Z) ≠ ∅ ∧
  ∃ v s', Unsafe.Pop (ints [1; 2; 3]%Z) (map_to_list (dat (ints [1; 2; 3]%Z))) = ((v, true), s') ∧
    Unsafe.Add v s' = (Done true, (ints [1; 2; 3]%Z)).
Proof.
  split_and!; [apply example_set_inv|apply range_of_map_to_list|by vm_compute|].
  apply (Pop_then_Add (ints [1; 2; 3]%Z) (map_to_list (dat (ints [1; 2; 3]%Z))));
    [apply example_set_inv|apply range_of_map_to_list|by vm_compute].
Defined.

End Examples.
